(** * xgotext: extraction of gettext catalogs from Go call sites

    A shallow embedding of [cli/xgotext/main.go].  The Go syntax tree, the
    package-level variables and the open catalog files are explicit data; the
    functions of [main.go] become functions of a state-and-abort monad, each
    under the name it has in the source.  The services of the Go standard
    library that the program calls ([strconv.Unquote], [path.Join],
    [os.OpenFile], [os.Stat], [parser.ParseFile], [parser.ParseDir]) are the
    fields of a [Host] record, so that every statement holds for whatever these
    services answer. *)

From stdpp Require Import gmap strings list pretty.

Local Open Scope string_scope.
Local Open Scope list_scope.

(** ** Characters that cannot be typed inside a string literal *)

Definition dq : string := String (Ascii.ascii_of_nat 34) EmptyString.
Definition nl : string := String (Ascii.ascii_of_nat 10) EmptyString.
Definition tab : string := String (Ascii.ascii_of_nat 9) EmptyString.

(** [flatten] is the content of a stream on which the chunks [l] were written
    one after the other. *)
Definition flatten (l : list string) : string := foldr String.append EmptyString l.

(** ** [go/token] *)

Module token.

(** The kinds a [BasicLit] can have. *)
Inductive Token := INT | FLOAT | IMAG | CHAR | STRING.

Definition Token_eqb (a b : Token) : bool :=
  match a, b with
  | INT, INT | FLOAT, FLOAT | IMAG, IMAG | CHAR, CHAR | STRING, STRING => true
  | _, _ => false
  end.

(** [type Pos int] *)
Definition Pos := Z.

(** The two fields of [token.Position] that the program reads. *)
Record Position := { Filename : string; Line : Z }.

(** A file set is used through [Position] only: it is the table from
    positions to file names and lines. *)
Definition FileSet := Pos → Position.

(** [token.NewFileSet()]: no file is registered and every position is
    reported as the zero [Position]. *)
Definition NewFileSet : FileSet := λ _, {| Filename := EmptyString; Line := 0 |}.

End token.

(** ** [go/ast] *)

Module ast.

Inductive ObjKind := Bad | Pkg | Con | Typ | Var | Fun | Lbl.

Record Object := { Kind : ObjKind }.

(** [*ast.Ident]: [Obj] is [nil] when the parser did not resolve the
    identifier inside the file. *)
Record IdentT := { Name : string; Obj : option Object }.

(** [func (id *Ident) String() string] on a non-nil identifier. *)
Definition String (id : IdentT) : string := Name id.

(** The nodes of a syntax tree.  The four node kinds the program looks into
    keep their fields; every other kind of node (statements, declarations,
    the file itself, the remaining expressions) is [Other] with its children
    in the order [ast.Walk] visits them. *)
#[warning="-register-all"]
Inductive Node :=
| BasicLit (Kind : token.Token) (Value : string)
| Ident (id : IdentT)
| SelectorExpr (X : Node) (Sel : IdentT)
| CallExpr (Fun : Node) (Lparen : token.Pos) (Args : list Node)
| Other (children : list Node).

End ast.

(** The fields of an [*ast.CallExpr], as the parse functions receive it. *)
Record CallExpr := { Fun : ast.Node; Lparen : token.Pos; Args : list ast.Node }.

(** ** The process: package-level variables and open files *)

(** An open [*os.File]: the path it was opened on and the chunks written to
    it by the successive [Write] calls.  Every file is opened with
    [O_TRUNC|O_CREATE|O_WRONLY], so it starts empty and its content is the
    concatenation of the chunks.  Each open file is a stream of its own:
    what the system does with two streams opened on one path (two domain
    names that [path.Join] sends to the same file) is not followed. *)
Record OsFile := { name : string; written : list string }.

Definition contents (f : OsFile) : string := flatten (written f).

(** A [*os.File] value is the index of the file in the table of open files. *)
Abbreviation File := nat (only parsing).

Record State := {
  dirName : string;
  outputDir : string;
  fset : token.FileSet;
  domainFiles : gmap string File;
  currentDomain : string;
  currentFile : string;
  openFiles : list OsFile
}.

Definition set_dirName (v : string) (s : State) : State :=
  {| dirName := v; outputDir := outputDir s; fset := fset s;
     domainFiles := domainFiles s; currentDomain := currentDomain s;
     currentFile := currentFile s; openFiles := openFiles s |}.

Definition set_outputDir (v : string) (s : State) : State :=
  {| dirName := dirName s; outputDir := v; fset := fset s;
     domainFiles := domainFiles s; currentDomain := currentDomain s;
     currentFile := currentFile s; openFiles := openFiles s |}.

Definition set_fset (v : token.FileSet) (s : State) : State :=
  {| dirName := dirName s; outputDir := outputDir s; fset := v;
     domainFiles := domainFiles s; currentDomain := currentDomain s;
     currentFile := currentFile s; openFiles := openFiles s |}.

Definition set_domainFiles (v : gmap string File) (s : State) : State :=
  {| dirName := dirName s; outputDir := outputDir s; fset := fset s;
     domainFiles := v; currentDomain := currentDomain s;
     currentFile := currentFile s; openFiles := openFiles s |}.

Definition set_currentFile (v : string) (s : State) : State :=
  {| dirName := dirName s; outputDir := outputDir s; fset := fset s;
     domainFiles := domainFiles s; currentDomain := currentDomain s;
     currentFile := v; openFiles := openFiles s |}.

Definition set_openFiles (v : list OsFile) (s : State) : State :=
  {| dirName := dirName s; outputDir := outputDir s; fset := fset s;
     domainFiles := domainFiles s; currentDomain := currentDomain s;
     currentFile := currentFile s; openFiles := v |}.

(** The variables as the [var (...)] block initialises them; no file is open. *)
Definition initial : State :=
  {| dirName := EmptyString; outputDir := EmptyString; fset := token.NewFileSet;
     domainFiles := ∅; currentDomain := "default"; currentFile := EmptyString;
     openFiles := [] |}.

(** ** Ways in which the process ends before [main] returns *)

(** [log.Fatal] prints and calls [os.Exit(1)]. *)
Inductive fatal := Usage | StatError | ParseError | UnquoteError | OpenError.

(** Run-time panics: a failed type assertion [x.(T)], a field read through a
    nil pointer, an index outside a slice. *)
Inductive panic := TypeAssertion | NilDereference | IndexOutOfRange.

Inductive abort := Fatal (why : fatal) | Panic (why : panic).

(** The exit status of the process: 1 after [log.Fatal], 2 after a panic. *)
Definition exit_status (k : abort) : Z :=
  match k with Fatal _ => 1 | Panic _ => 2 end.

(** The outcome of a computation: a value and the state it leaves, or an
    abort with the state at the moment the process ended. *)
Inductive Res (A : Type) :=
| Ok (a : A) (st : State)
| Abort (k : abort) (st : State).
Arguments Ok {A} a st.
Arguments Abort {A} k st.

Definition M (A : Type) : Type := State → Res A.

#[global] Instance M_ret : MRet M := λ A a st, Ok a st.
#[global] Instance M_bind : MBind M := λ A B f m st,
  match m st with
  | Ok a st' => f a st'
  | Abort k st' => Abort k st'
  end.

Definition get {A} (proj : State → A) : M A := λ st, Ok (proj st) st.
Definition modify (f : State → State) : M unit := λ st, Ok tt (f st).
Definition die {A} (k : abort) : M A := λ st, Abort k st.

(** The state in which a computation leaves the process, however it ends. *)
Definition final {A} (r : Res A) : State :=
  match r with Ok _ st => st | Abort _ st => st end.

(** ** What the program asks from the standard library and the system *)

Record Host := {
  (** [strconv.Unquote]: [None] stands for a non-nil error. *)
  strconv_Unquote : string → option string;
  (** [path.Join] of two elements. *)
  path_Join : string → string → string;
  (** Whether [os.OpenFile(p, O_TRUNC|O_CREATE|O_WRONLY, 0644)] succeeds. *)
  os_OpenFile : string → bool;
  (** [os.Stat(p)]: [None] for an error, otherwise [IsDir()]. *)
  os_Stat : string → option bool;
  (** [parser.ParseFile] on a fresh file set: the positions it registers and
      the tree, [None] for an error. *)
  parser_ParseFile : string → option (token.FileSet * ast.Node);
  (** [parser.ParseDir]: packages by name, each with its files by file name;
      [None] for an error. *)
  parser_ParseDir : string → option (gmap string (gmap string ast.Node))
}.

Section Program.

Context (H : Host).

(** *** [Write] on an [os.File]: the chunk is added to the file.  Every
    caller discards the results of [Write], so that a write that fails
    would go unnoticed; writes are taken to succeed. *)
Definition File_Write (f : File) (b : string) : M unit :=
  modify (λ st,
    set_openFiles
      (alter (λ o, {| name := name o; written := written o ++ [b] |}) f (openFiles st))
      st).

(** *** The header, byte for byte the raw string literal of [writePoHeader] *)
Definition h : string :=
  "msgid " +:+ dq +:+ dq +:+ nl +:+
  "msgstr " +:+ dq +:+ dq +:+ nl +:+
  dq +:+ "Plural-Forms: nplurals=2; plural=(n != 1);\n" +:+ dq +:+ nl +:+
  dq +:+ "MIME-Version: 1.0\n" +:+ dq +:+ nl +:+
  dq +:+ "Content-Type: text/plain; charset=UTF-8\n" +:+ dq +:+ nl +:+
  dq +:+ "Content-Transfer-Encoding: 8bit\n" +:+ dq +:+ nl +:+
  dq +:+ "Language: \n" +:+ dq +:+ nl +:+
  dq +:+ "X-Generator: xgotext\n" +:+ dq +:+ nl +:+
  nl +:+
  tab.

Definition writePoHeader (f : File) : M unit := File_Write f h.

Definition getDomainFile (domain : string) : M File :=
  files ← get domainFiles;
  match files !! domain with
  | Some f => mret f
  | None =>
      out ← get outputDir;
      let filePath := path_Join H out (domain +:+ ".po") in
      if os_OpenFile H filePath then
        f ← get (λ st, length (openFiles st));
        modify (λ st, set_openFiles
                        (openFiles st ++ [{| name := filePath; written := [] |}]) st);;
        modify (λ st, set_domainFiles (<[domain := f]> (domainFiles st)) st);;
        writePoHeader f;;
        mret f
      else die (Fatal OpenError)
  end.

Definition write (dom msgid : string) : M unit :=
  f ← getDomainFile dom;
  File_Write f (nl +:+ "msgid " +:+ msgid);;
  File_Write f (nl +:+ "msgstr " +:+ dq +:+ dq);;
  File_Write f nl.

Definition writePlural (dom msgid msgidPlural : string) : M unit :=
  f ← getDomainFile dom;
  File_Write f (nl +:+ "msgid " +:+ msgid);;
  File_Write f (nl +:+ "msgid_plural " +:+ msgidPlural);;
  File_Write f (nl +:+ "msgstr[0] " +:+ dq +:+ dq);;
  File_Write f (nl +:+ "msgstr[1] " +:+ dq +:+ dq);;
  File_Write f nl.

Definition writeContext (dom ctx : string) : M unit :=
  f ← getDomainFile dom;
  File_Write f (nl +:+ "msgctxt " +:+ ctx).

Definition writeComments (dom file call : string) : M unit :=
  f ← getDomainFile dom;
  File_Write f (nl +:+ "#: " +:+ file);;
  File_Write f (nl +:+ "#. " +:+ call).

(** *** Reading a slice element: an index outside the slice panics. *)
Definition index {A} (l : list A) (i : nat) : M A :=
  match l !! i with
  | Some x => mret x
  | None => die (Panic IndexOutOfRange)
  end.

(** *** The two [fmt.Sprintf] arguments every parse function passes to
    [writeComments] *)

(** The first one is the [Filename] and the [Line] of
    [fset.Position(call.Lparen)], joined by a colon; the line is printed
    in decimal. *)
Definition sprintPosition (call : CallExpr) : M string :=
  fs ← get fset;
  mret (token.Filename (fs (Lparen call)) +:+ ":" +:+ pretty (token.Line (fs (Lparen call)))).

(** The second one joins, with a dot, the [Name] of [call.Fun]'s [X],
    after asserting [call.Fun] to be a selector expression and [X] to be an
    identifier, and [Sel.String()].  Both type assertions are of the
    one-result form and panic when they fail. *)
Definition sprintCall (call : CallExpr) : M string :=
  match Fun call with
  | ast.SelectorExpr x sel =>
      match x with
      | ast.Ident id => mret (ast.Name id +:+ "." +:+ ast.String sel)
      | _ => die (Panic TypeAssertion)
      end
  | _ => die (Panic TypeAssertion)
  end.

Definition ObjKind_eqb (a b : ast.ObjKind) : bool :=
  match a, b with
  | ast.Bad, ast.Bad | ast.Pkg, ast.Pkg | ast.Con, ast.Con | ast.Typ, ast.Typ
  | ast.Var, ast.Var | ast.Fun, ast.Fun | ast.Lbl, ast.Lbl => true
  | _, _ => false
  end.

(** *** The eight parse functions *)

Definition parseGet (call : CallExpr) : M unit :=
  if (0 <? length (Args call))%nat then
    a0 ← index (Args call) 0;
    match a0 with
    | ast.BasicLit k v =>
        if token.Token_eqb k token.STRING then
          dom ← get currentDomain;
          file ← sprintPosition call;
          lbl ← sprintCall call;
          writeComments dom file lbl;;
          dom ← get currentDomain;
          write dom v
        else mret tt
    | _ => mret tt
    end
  else mret tt.

Definition parseGetN (call : CallExpr) : M unit :=
  if (length (Args call) <? 3)%nat then mret tt
  else
    a0 ← index (Args call) 0;
    match a0 with
    | ast.BasicLit k v =>
        a1 ← index (Args call) 1;
        match a1 with
        | ast.BasicLit k1 v1 =>
            if token.Token_eqb k token.STRING && token.Token_eqb k1 token.STRING then
              let rest : M unit :=
                dom ← get currentDomain;
                file ← sprintPosition call;
                lbl ← sprintCall call;
                writeComments dom file lbl;;
                dom ← get currentDomain;
                writePlural dom v v1 in
              a2 ← index (Args call) 2;
              match a2 with
              | ast.BasicLit kx _ =>
                  if negb (token.Token_eqb kx token.INT) then mret tt else rest
              | ast.Ident x =>
                  match ast.Obj x with
                  | None => die (Panic NilDereference)
                  | Some o =>
                      if negb (ObjKind_eqb (ast.Kind o) ast.Var)
                         && negb (ObjKind_eqb (ast.Kind o) ast.Con)
                      then mret tt else rest
                  end
              | _ => mret tt
              end
            else mret tt
        | _ => mret tt
        end
    | _ => mret tt
    end.

(** [dom, err := strconv.Unquote(lit.Value); if err != nil { log.Fatal(err) }] *)
Definition unquoteDomain (v : string) : M string :=
  match strconv_Unquote H v with
  | Some dom => mret dom
  | None => die (Fatal UnquoteError)
  end.

Definition parseGetD (call : CallExpr) : M unit :=
  if (1 <? length (Args call))%nat then
    a0 ← index (Args call) 0;
    match a0 with
    | ast.BasicLit k v =>
        a1 ← index (Args call) 1;
        match a1 with
        | ast.BasicLit k1 v1 =>
            if token.Token_eqb k token.STRING && token.Token_eqb k1 token.STRING then
              dom ← unquoteDomain v;
              file ← sprintPosition call;
              lbl ← sprintCall call;
              writeComments dom file lbl;;
              write dom v1
            else mret tt
        | _ => mret tt
        end
    | _ => mret tt
    end
  else mret tt.

Definition parseGetND (call : CallExpr) : M unit :=
  if (2 <? length (Args call))%nat then
    a0 ← index (Args call) 0;
    match a0 with
    | ast.BasicLit k v =>
        a1 ← index (Args call) 1;
        match a1 with
        | ast.BasicLit k1 v1 =>
            a2 ← index (Args call) 2;
            match a2 with
            | ast.BasicLit k2 v2 =>
                if token.Token_eqb k token.STRING && token.Token_eqb k1 token.STRING
                   && token.Token_eqb k2 token.STRING then
                  dom ← unquoteDomain v;
                  file ← sprintPosition call;
                  lbl ← sprintCall call;
                  writeComments dom file lbl;;
                  writePlural dom v1 v2
                else mret tt
            | _ => mret tt
            end
        | _ => mret tt
        end
    | _ => mret tt
    end
  else mret tt.

Definition parseGetC (call : CallExpr) : M unit :=
  if (1 <? length (Args call))%nat then
    a0 ← index (Args call) 0;
    match a0 with
    | ast.BasicLit k v =>
        a1 ← index (Args call) 1;
        match a1 with
        | ast.BasicLit k1 v1 =>
            if token.Token_eqb k token.STRING && token.Token_eqb k1 token.STRING then
              dom ← get currentDomain;
              file ← sprintPosition call;
              lbl ← sprintCall call;
              writeComments dom file lbl;;
              dom ← get currentDomain;
              writeContext dom v1;;
              dom ← get currentDomain;
              write dom v
            else mret tt
        | _ => mret tt
        end
    | _ => mret tt
    end
  else mret tt.

Definition parseGetNC (call : CallExpr) : M unit :=
  if (3 <? length (Args call))%nat then
    a0 ← index (Args call) 0;
    match a0 with
    | ast.BasicLit k v =>
        a1 ← index (Args call) 1;
        match a1 with
        | ast.BasicLit k1 v1 =>
            a3 ← index (Args call) 3;
            match a3 with
            | ast.BasicLit k3 v3 =>
                if token.Token_eqb k token.STRING && token.Token_eqb k1 token.STRING
                   && token.Token_eqb k3 token.STRING then
                  dom ← get currentDomain;
                  file ← sprintPosition call;
                  lbl ← sprintCall call;
                  writeComments dom file lbl;;
                  dom ← get currentDomain;
                  writeContext dom v3;;
                  dom ← get currentDomain;
                  writePlural dom v v1
                else mret tt
            | _ => mret tt
            end
        | _ => mret tt
        end
    | _ => mret tt
    end
  else mret tt.

Definition parseGetDC (call : CallExpr) : M unit :=
  if (2 <? length (Args call))%nat then
    a0 ← index (Args call) 0;
    match a0 with
    | ast.BasicLit k v =>
        a1 ← index (Args call) 1;
        match a1 with
        | ast.BasicLit k1 v1 =>
            a2 ← index (Args call) 2;
            match a2 with
            | ast.BasicLit k2 v2 =>
                if token.Token_eqb k token.STRING && token.Token_eqb k1 token.STRING
                   && token.Token_eqb k2 token.STRING then
                  dom ← unquoteDomain v;
                  file ← sprintPosition call;
                  lbl ← sprintCall call;
                  writeComments dom file lbl;;
                  writeContext dom v2;;
                  write dom v1
                else mret tt
            | _ => mret tt
            end
        | _ => mret tt
        end
    | _ => mret tt
    end
  else mret tt.

Definition parseGetNDC (call : CallExpr) : M unit :=
  if (4 <? length (Args call))%nat then
    a0 ← index (Args call) 0;
    match a0 with
    | ast.BasicLit k v =>
        a1 ← index (Args call) 1;
        match a1 with
        | ast.BasicLit k1 v1 =>
            a2 ← index (Args call) 2;
            match a2 with
            | ast.BasicLit k2 v2 =>
                a4 ← index (Args call) 4;
                match a4 with
                | ast.BasicLit k4 v4 =>
                    if token.Token_eqb k token.STRING && token.Token_eqb k1 token.STRING
                       && token.Token_eqb k2 token.STRING && token.Token_eqb k4 token.STRING then
                      dom ← unquoteDomain v;
                      file ← sprintPosition call;
                      lbl ← sprintCall call;
                      writeComments dom file lbl;;
                      writeContext dom v4;;
                      writePlural dom v1 v2
                    else mret tt
                | _ => mret tt
                end
            | _ => mret tt
            end
        | _ => mret tt
        end
    | _ => mret tt
    end
  else mret tt.

(** *** Dispatch on the selector name *)
Definition inspectCallExpr (n : CallExpr) : M unit :=
  match Fun n with
  | ast.SelectorExpr _ sel =>
      let s := ast.String sel in
      if String.eqb s "Get" then parseGet n
      else if String.eqb s "GetN" then parseGetN n
      else if String.eqb s "GetD" then parseGetD n
      else if String.eqb s "GetND" then parseGetND n
      else if String.eqb s "GetC" then parseGetC n
      else if String.eqb s "GetNC" then parseGetNC n
      else if String.eqb s "GetDC" then parseGetDC n
      else if String.eqb s "GetNDC" then parseGetNDC n
      else mret tt
  | _ => mret tt
  end.

(** The visitor: [None] is the nil node [ast.Walk] passes after the
    children of a node. *)
Definition inspectFile (n : option ast.Node) : M bool :=
  match n with
  | Some (ast.CallExpr f lp args) =>
      inspectCallExpr {| Fun := f; Lparen := lp; Args := args |};;
      mret true
  | _ => mret true
  end.

(** *** [ast.Inspect]

    [ast.Inspect(node, f)] walks the tree depth first: it calls [f] on the
    node and, when [f] answers true, walks the children in order and
    then calls [f] on nil.  The children of a call are its [Fun] and then
    its [Args]; those of a selector expression its [X] and then its
    [Sel]. *)
Fixpoint Inspect (node : ast.Node) (f : option ast.Node → M bool) {struct node} : M unit :=
  more ← f (Some node);
  if (more : bool) then
    match node with
    | ast.BasicLit _ _ | ast.Ident _ => mret tt
    | ast.SelectorExpr x sel =>
        Inspect x f;;
        more ← f (Some (ast.Ident sel));
        if (more : bool) then f None;; mret tt else mret tt
    | ast.CallExpr fn _ args =>
        Inspect fn f;;
        (fix walkList (l : list ast.Node) : M unit :=
           match l with
           | [] => mret tt
           | x :: r => Inspect x f;; walkList r
           end) args
    | ast.Other children =>
        (fix walkList (l : list ast.Node) : M unit :=
           match l with
           | [] => mret tt
           | x :: r => Inspect x f;; walkList r
           end) children
    end;;
    f None;;
    mret tt
  else mret tt.

Definition parseFile (fileName : string) : M unit :=
  modify (set_currentFile fileName);;
  modify (set_fset token.NewFileSet);;
  match parser_ParseFile H fileName with
  | None => die (Fatal ParseError)
  | Some (fs, node) =>
      modify (set_fset fs);;
      Inspect node inspectFile
  end.

(** *** [parseDir]

    Both loops of [parseDir] range over a Go map, and a [range] over a map
    visits every key once in an order the language leaves unspecified and
    that may differ from one execution to the next.  [range_order m keys]
    says that [keys] is such an order; [parseDir] is therefore a relation
    between the state before and the outcomes that can be observed. *)
Definition range_order {V} (m : gmap string V) (keys : list string) : Prop :=
  keys ≡ₚ (map_to_list m).*1.

(** The inner loop, for the chosen order of the file names. *)
Fixpoint parseFiles (fns : list string) : M unit :=
  match fns with
  | [] => mret tt
  | fn :: rest => parseFile fn;; parseFiles rest
  end.

(** The outer loop over the packages still to visit. *)
Inductive parsePkgs : list (gmap string ast.Node) → State → Res unit → Prop :=
| parsePkgs_done st :
    parsePkgs [] st (Ok tt st)
| parsePkgs_next pkg pkgs fns st st1 r :
    range_order pkg fns →
    parseFiles fns st = Ok tt st1 →
    parsePkgs pkgs st1 r →
    parsePkgs (pkg :: pkgs) st r
| parsePkgs_abort pkg pkgs fns st k st1 :
    range_order pkg fns →
    parseFiles fns st = Abort k st1 →
    parsePkgs (pkg :: pkgs) st (Abort k st1).

Inductive parseDir (dirName : string) (st : State) : Res unit → Prop :=
| parseDir_error :
    parser_ParseDir H dirName = None →
    parseDir dirName st (Abort (Fatal ParseError) st)
| parseDir_range pkgs order r :
    parser_ParseDir H dirName = Some pkgs →
    order ≡ₚ (map_to_list pkgs).*2 →
    parsePkgs order st r →
    parseDir dirName st r.

(** *** [main]

    [args] is [os.Args].  The part of [main] before the choice between
    [parseDir] and [parseFile] is a function; it answers [IsDir()]. *)
Definition main_args (args : list string) : M bool :=
  modify (set_domainFiles ∅);;
  if (length args <? 2)%nat then die (Fatal Usage)
  else
    (if (2 <? length args)%nat
     then a2 ← index args 2; modify (set_outputDir a2)
     else mret tt);;
    a1 ← index args 1;
    modify (set_dirName a1);;
    match os_Stat H a1 with
    | None => die (Fatal StatError)
    | Some isDir => mret isDir
    end.

Inductive main (args : list string) : Res unit → Prop :=
| main_abort k st :
    main_args args initial = Abort k st →
    main args (Abort k st)
| main_dir st r :
    main_args args initial = Ok true st →
    parseDir (dirName st) st r →
    main args r
| main_file st :
    main_args args initial = Ok false st →
    main args (parseFile (dirName st) st).

End Program.

(** ** The design the program implements: records, signatures, matcher

    The program never builds the Extraction Record of its design: each parse
    function passes the fields straight to the writer functions.  The
    definitions below spell the design out, field by field, so that the
    functions of the source can be compared with it. *)

Record Extraction := {
  domain : string;
  msgid : string;
  msgidPlural : option string;
  context : option string;
  location : token.Position;
  callLabel : string
}.

(** The text of the location comment: file, colon, line in decimal. *)
Definition location_text (p : token.Position) : string :=
  token.Filename p +:+ ":" +:+ pretty (token.Line p).

(** The lines of the catalog block of a record, in order. *)
Definition entry_lines (r : Extraction) : list string :=
  ["#: " +:+ location_text (location r); "#. " +:+ callLabel r]
  ++ match context r with
     | Some c => ["msgctxt " +:+ c]
     | None => []
     end
  ++ match msgidPlural r with
     | Some p => ["msgid " +:+ msgid r; "msgid_plural " +:+ p;
                  "msgstr[0] " +:+ dq +:+ dq; "msgstr[1] " +:+ dq +:+ dq]
     | None => ["msgid " +:+ msgid r; "msgstr " +:+ dq +:+ dq]
     end.

(** The block itself: a line break, which after the line break that ends
    the previous block leaves one empty line, and then every line of the
    block with its line break. *)
Definition entry_text (r : Extraction) : string :=
  nl +:+ flatten ((λ l, l +:+ nl) <$> entry_lines r).

(** The text of the header block: the eight lines of the output format. *)
Definition header_lines : list string :=
  [ "msgid " +:+ dq +:+ dq;
    "msgstr " +:+ dq +:+ dq;
    dq +:+ "Plural-Forms: nplurals=2; plural=(n != 1);\n" +:+ dq;
    dq +:+ "MIME-Version: 1.0\n" +:+ dq;
    dq +:+ "Content-Type: text/plain; charset=UTF-8\n" +:+ dq;
    dq +:+ "Content-Transfer-Encoding: 8bit\n" +:+ dq;
    dq +:+ "Language: \n" +:+ dq;
    dq +:+ "X-Generator: xgotext\n" +:+ dq ].

Definition header_block : string := flatten ((λ l, l +:+ nl) <$> header_lines).

(** One row of the signature table.  [domainSource] is [None] for the
    current domain and [Some i] when argument [i] names the domain;
    [countArgPosition] is the position whose shape is examined. *)
Record Signature := {
  methodName : string;
  minArgCount : nat;
  stringArgPositions : list nat;
  domainSource : option nat;
  msgidPosition : nat;
  pluralPosition : option nat;
  contextArgPosition : option nat;
  countArgPosition : option nat
}.

(** The table as [main.go] implements it.  Only [parseGetN] looks at its
    count argument; [parseGetNC] and [parseGetNDC] do not, hence their
    [countArgPosition] is [None]. *)
Definition signatures : list Signature :=
  [ {| methodName := "Get"; minArgCount := 1; stringArgPositions := [0];
       domainSource := None; msgidPosition := 0; pluralPosition := None;
       contextArgPosition := None; countArgPosition := None |};
    {| methodName := "GetN"; minArgCount := 3; stringArgPositions := [0; 1];
       domainSource := None; msgidPosition := 0; pluralPosition := Some 1;
       contextArgPosition := None; countArgPosition := Some 2 |};
    {| methodName := "GetD"; minArgCount := 2; stringArgPositions := [0; 1];
       domainSource := Some 0; msgidPosition := 1; pluralPosition := None;
       contextArgPosition := None; countArgPosition := None |};
    {| methodName := "GetND"; minArgCount := 3; stringArgPositions := [0; 1; 2];
       domainSource := Some 0; msgidPosition := 1; pluralPosition := Some 2;
       contextArgPosition := None; countArgPosition := None |};
    {| methodName := "GetC"; minArgCount := 2; stringArgPositions := [0; 1];
       domainSource := None; msgidPosition := 0; pluralPosition := None;
       contextArgPosition := Some 1; countArgPosition := None |};
    {| methodName := "GetNC"; minArgCount := 4; stringArgPositions := [0; 1; 3];
       domainSource := None; msgidPosition := 0; pluralPosition := Some 1;
       contextArgPosition := Some 3; countArgPosition := None |};
    {| methodName := "GetDC"; minArgCount := 3; stringArgPositions := [0; 1; 2];
       domainSource := Some 0; msgidPosition := 1; pluralPosition := None;
       contextArgPosition := Some 2; countArgPosition := None |};
    {| methodName := "GetNDC"; minArgCount := 5; stringArgPositions := [0; 1; 2; 4];
       domainSource := Some 0; msgidPosition := 1; pluralPosition := Some 2;
       contextArgPosition := Some 4; countArgPosition := None |} ].

Definition signature_for (method : string) : option Signature :=
  List.find (λ s, String.eqb (methodName s) method) signatures.

(** The raw token of the string literal at position [i], if there is one. *)
Definition stringAt (args : list ast.Node) (i : nat) : option string :=
  match args !! i with
  | Some (ast.BasicLit token.STRING v) => Some v
  | _ => None
  end.

Definition strings_ok (s : Signature) (args : list ast.Node) : bool :=
  forallb (λ i, match stringAt args i with Some _ => true | None => false end)
          (stringArgPositions s).

(** The shapes of a count argument: an integer literal or an identifier
    resolved to a variable or a constant is accepted; an identifier that
    the parser left unresolved has no object to look at. *)
Inductive CountShape := CountAccepted | CountRejected | CountUnresolved.

Definition countShape (a : ast.Node) : CountShape :=
  match a with
  | ast.BasicLit token.INT _ => CountAccepted
  | ast.Ident x =>
      match ast.Obj x with
      | None => CountUnresolved
      | Some {| ast.Kind := ast.Var |} | Some {| ast.Kind := ast.Con |} => CountAccepted
      | Some _ => CountRejected
      end
  | _ => CountRejected
  end.

(** The shape found at the examined position; a signature that examines no
    position accepts every call. *)
Definition count_check (s : Signature) (args : list ast.Node) : CountShape :=
  match countArgPosition s with
  | None => CountAccepted
  | Some i => from_option countShape CountRejected (args !! i)
  end.

(** The receiver of the call when it is a plain identifier. *)
Definition receiver (call : CallExpr) : option string :=
  match Fun call with
  | ast.SelectorExpr (ast.Ident id) _ => Some (ast.Name id)
  | _ => None
  end.

Definition selector (call : CallExpr) : option string :=
  match Fun call with
  | ast.SelectorExpr _ sel => Some (ast.String sel)
  | _ => None
  end.

(** What the matcher decides about a call site. *)
Inductive Verdict :=
| Skipped
| Matched (r : Extraction)
| Aborted (k : abort).

Section Matcher.

Context (H : Host).

(** The domain of the record, [None] when the domain literal does not
    unquote. *)
Definition decode_domain (s : Signature) (st : State) (args : list ast.Node) : option string :=
  match domainSource s with
  | None => Some (currentDomain st)
  | Some i => stringAt args i ≫= strconv_Unquote H
  end.

(** The checks in the order the parse functions make them: argument
    count, string literals, count argument, domain, receiver. *)
Definition decode (s : Signature) (st : State) (call : CallExpr) : Verdict :=
  let args := Args call in
  if (length args <? minArgCount s)%nat then Skipped
  else if negb (strings_ok s args) then Skipped
  else
    match count_check s args with
    | CountRejected => Skipped
    | CountUnresolved => Aborted (Panic NilDereference)
    | CountAccepted =>
        match decode_domain s st args with
        | None => Aborted (Fatal UnquoteError)
        | Some d =>
            match receiver call with
            | None => Aborted (Panic TypeAssertion)
            | Some x =>
                Matched
                  {| domain := d;
                     msgid := default EmptyString (stringAt args (msgidPosition s));
                     msgidPlural := pluralPosition s ≫= stringAt args;
                     context := contextArgPosition s ≫= stringAt args;
                     location := fset st (Lparen call);
                     callLabel := x +:+ "." +:+ methodName s |}
            end
        end
    end.

Definition matcher (st : State) (call : CallExpr) : Verdict :=
  match selector call with
  | Some method =>
      match signature_for method with
      | Some s => decode s st call
      | None => Skipped
      end
  | None => Skipped
  end.

(** The writer, as every parse function calls it for the record it has
    matched: the comments, the context if any, and the singular or the
    plural message. *)
Definition writeRecord (r : Extraction) : M unit :=
  writeComments H (domain r) (location_text (location r)) (callLabel r);;
  match context r with
  | Some c => writeContext H (domain r) c
  | None => mret tt
  end;;
  match msgidPlural r with
  | Some p => writePlural H (domain r) (msgid r) p
  | None => write H (domain r) (msgid r)
  end.

(** The chunks [writeRecord] hands to [Write], in order. *)
Definition record_chunks (r : Extraction) : list string :=
  [nl +:+ "#: " +:+ location_text (location r); nl +:+ "#. " +:+ callLabel r]
  ++ match context r with
     | Some c => [nl +:+ "msgctxt " +:+ c]
     | None => []
     end
  ++ match msgidPlural r with
     | Some p => [nl +:+ "msgid " +:+ msgid r; nl +:+ "msgid_plural " +:+ p;
                  nl +:+ "msgstr[0] " +:+ dq +:+ dq; nl +:+ "msgstr[1] " +:+ dq +:+ dq; nl]
     | None => [nl +:+ "msgid " +:+ msgid r; nl +:+ "msgstr " +:+ dq +:+ dq; nl]
     end.

(** What a verdict does to the process. *)
Definition enact (v : Verdict) : M unit :=
  match v with
  | Skipped => mret tt
  | Matched r => writeRecord r
  | Aborted k => die k
  end.

End Matcher.

(** [append_chunks f cs st]: the state after the chunks [cs] were written to
    the open file [f]. *)
Definition append_chunks (f : File) (cs : list string) (st : State) : State :=
  set_openFiles
    (alter (λ o, {| name := name o; written := written o ++ cs |}) f (openFiles st)) st.

(** The stream registered for a domain, if any. *)
Definition stream (st : State) (d : string) : option OsFile :=
  domainFiles st !! d ≫= λ f, openFiles st !! f.

(** [created H d st]: the state after the first resolve of domain [d], when
    the file could be opened: a new open file, empty but for the header
    chunk, registered under [d]. *)
Definition created (H : Host) (d : string) (st : State) : State :=
  set_domainFiles (<[d := length (openFiles st)]> (domainFiles st))
    (set_openFiles
       (openFiles st ++ [{| name := path_Join H (outputDir st) (d +:+ ".po");
                            written := [h] |}])
       st).

Section Writer.

Context (H : Host).

(** [emit d cs]: resolve the stream of domain [d], then write the chunks
    [cs] to it. *)
Definition emit (d : string) (cs : list string) : M unit :=
  f ← getDomainFile H d;
  modify (append_chunks f cs).

End Writer.

(** ** Invariant of the registry *)

(** [registry_ok H st]: every registered domain has an open file of its own,
    opened on the path of the domain's [.po] file, on which the header was
    the first chunk written and was written only once. *)
Definition registry_ok (H : Host) (st : State) : Prop :=
  (∀ d f, domainFiles st !! d = Some f →
      ∃ o cs, openFiles st !! f = Some o
              ∧ name o = path_Join H (outputDir st) (d +:+ ".po")
              ∧ written o = h :: cs ∧ h ∉ cs)
  ∧ (∀ d1 d2 f, domainFiles st !! d1 = Some f → domainFiles st !! d2 = Some f → d1 = d2).

(** [preserves P m]: the computation [m] keeps [P], however it ends. *)
Definition preserves {A} (P : State → Prop) (m : M A) : Prop :=
  ∀ st, P st → P (final (m st)).

(** The requirements a call has to meet for its signature, the receiver
    apart: enough arguments, string literals where the signature wants
    them, an accepted count argument where one is examined, a domain
    literal that unquotes. *)
Definition requirements_met (H : Host) (s : Signature) (st : State) (call : CallExpr) : bool :=
  (minArgCount s <=? length (Args call))%nat
  && strings_ok s (Args call)
  && match count_check s (Args call) with CountAccepted => true | _ => false end
  && match decode_domain H s st (Args call) with Some _ => true | None => false end.


(** [visits pkgs fns]: [fns] lists the file names in an order in which the two
    loops of [parseDir] can visit them, the packages being taken in the
    order of the list [pkgs]. *)
Inductive visits : list (gmap string ast.Node) → list string → Prop :=
| visits_nil : visits [] []
| visits_cons pkg pkgs fns rest :
    fns ≡ₚ (map_to_list pkg).*1 →
    visits pkgs rest →
    visits (pkg :: pkgs) (fns ++ rest).

(** All the file names of the packages. *)
Definition all_files (pkgs : list (gmap string ast.Node)) : list string :=
  pkgs ≫= λ pkg, (map_to_list pkg).*1.

(** ** The call sites of a tree, in the order of the walk *)

(** [calls_of n]: the call expressions of the tree [n] in the order in
    which [ast.Inspect] reaches them: a call before the calls inside its
    [Fun], those before the calls inside its arguments, the arguments from
    left to right. *)
Fixpoint calls_of (n : ast.Node) : list CallExpr :=
  match n with
  | ast.BasicLit _ _ | ast.Ident _ => []
  | ast.SelectorExpr x _ => calls_of x
  | ast.CallExpr fn lp args =>
      {| Fun := fn; Lparen := lp; Args := args |}
      :: calls_of fn
      ++ (fix of_list (l : list ast.Node) : list CallExpr :=
            match l with
            | [] => []
            | x :: r => calls_of x ++ of_list r
            end) args
  | ast.Other children =>
      (fix of_list (l : list ast.Node) : list CallExpr :=
         match l with
         | [] => []
         | x :: r => calls_of x ++ of_list r
         end) children
  end.

Section CallSites.

Context (H : Host).

(** [inspectCallExpr] on each call site of a list, in order, as long as
    the process lives. *)
Fixpoint inspectCalls (calls : list CallExpr) : M unit :=
  match calls with
  | [] => mret tt
  | c :: rest => inspectCallExpr H c;; inspectCalls rest
  end.

End CallSites.

(** ** The content of the catalogs *)

Section Catalogs.

Context (H : Host).

(** The record the matcher builds for a call site, if it matches. *)
Definition record_of (st : State) (call : CallExpr) : option Extraction :=
  match matcher H st call with
  | Matched r => Some r
  | _ => None
  end.

(** The records of a list of call sites, in order. *)
Definition records_of (st : State) (calls : list CallExpr) : list Extraction :=
  omap (record_of st) calls.


End Catalogs.

(** The chunks of the records of domain [d], in the order of the records. *)
Definition blocks_for (d : string) (rs : list Extraction) : list string :=
  rs ≫= λ r, if decide (domain r = d) then record_chunks r else [].

(** [grow cs o]: the chunks on a stream after the chunks [cs] were emitted
    to its domain, [o] being the chunks before ([None]: no stream yet).
    Nothing emitted leaves the stream as it was, or absent. *)
Definition grow (cs : list string) (o : option (list string)) : option (list string) :=
  match cs with
  | [] => o
  | _ => Some (default [h] o ++ cs)
  end.


(** ** Further notions about runs and trees *)

(** The selector names [inspectCallExpr] dispatches on. *)
Definition method_names : list string :=
  ["Get"; "GetN"; "GetD"; "GetND"; "GetC"; "GetNC"; "GetDC"; "GetNDC"].

(** [registry_full st]: the open files are as many as the registered
    domains, and every open file is the stream of a registered domain. *)
Definition registry_full (st : State) : Prop :=
  length (openFiles st) = size (domainFiles st)
  ∧ ∀ f, (f < length (openFiles st))%nat → ∃ d, domainFiles st !! d = Some f.

(** A call expression as a node of the tree. *)
Definition call_node (c : CallExpr) : ast.Node :=
  ast.CallExpr (Fun c) (Lparen c) (Args c).

(** [occurs m n]: the node [m] is [n] or lies below [n], along the children
    [ast.Walk] follows. *)
Inductive occurs (m : ast.Node) : ast.Node → Prop :=
| occurs_here : occurs m m
| occurs_X x sel : occurs m x → occurs m (ast.SelectorExpr x sel)
| occurs_Sel x sel : m = ast.Ident sel → occurs m (ast.SelectorExpr x sel)
| occurs_Fun fn lp args : occurs m fn → occurs m (ast.CallExpr fn lp args)
| occurs_Args fn lp args a : a ∈ args → occurs m a → occurs m (ast.CallExpr fn lp args)
| occurs_child children a : a ∈ children → occurs m a → occurs m (ast.Other children).

(** ** A concrete host and concrete sources, for the examples *)

Module demo.

Definition is_dq (c : Ascii.ascii) : bool := Ascii.eqb c (Ascii.ascii_of_nat 34).
Definition is_backslash (c : Ascii.ascii) : bool := Ascii.eqb c (Ascii.ascii_of_nat 92).
Definition is_newline (c : Ascii.ascii) : bool := Ascii.eqb c (Ascii.ascii_of_nat 10).

(** [body_then_quote s]: [s] without its last character, when that one is
    a double quote and no character before it is a double quote, a
    backslash or a line break. *)
Fixpoint body_then_quote (s : string) : option string :=
  match s with
  | EmptyString => None
  | String c EmptyString => if is_dq c then Some EmptyString else None
  | String c r =>
      if is_dq c || is_backslash c || is_newline c then None
      else String c <$> body_then_quote r
  end.

(** [strconv.Unquote] on the interpreted string literals that contain no
    escape sequence: the value is the text between the quotes.  Every
    other token is answered with an error; among those the examples use
    only a literal with the escape [\z], which [strconv.Unquote] rejects as
    well. *)
Definition Unquote (s : string) : option string :=
  match s with
  | String c r => if is_dq c then body_then_quote r else None
  | EmptyString => None
  end.

(** [path.Join] on elements that are already clean. *)
Definition Join (dir file : string) : string :=
  if String.eqb dir EmptyString then file else dir +:+ "/" +:+ file.

Definition quoted (s : string) : string := dq +:+ s +:+ dq.

Definition lit (s : string) : ast.Node := ast.BasicLit token.STRING (quoted s).
Definition ident (x : string) (o : option ast.Object) : ast.IdentT :=
  {| ast.Name := x; ast.Obj := o |}.
Definition var (x : string) : ast.Node :=
  ast.Ident (ident x (Some {| ast.Kind := ast.Var |})).

(** [recv.method(args)] with its opening parenthesis at [pos]. *)
Definition call (recv method : string) (pos : token.Pos) (args : list ast.Node) : CallExpr :=
  {| Fun := ast.SelectorExpr (ast.Ident (ident recv (Some {| ast.Kind := ast.Pkg |})))
                             (ident method None);
     Lparen := pos; Args := args |}.

Definition node (c : CallExpr) : ast.Node := ast.CallExpr (Fun c) (Lparen c) (Args c).

(** The file set of a file named [fn] in which position [p] is on line [p]. *)
Definition lines_of (fn : string) : token.FileSet :=
  λ p, {| token.Filename := fn; token.Line := p |}.

(** Two source files: each holds one translation call inside a function
    body. *)
Definition a_go : ast.Node :=
  ast.Other [ast.Other [node (call "gotext" "Get" 5%Z [lit "hello"])]].
Definition b_go : ast.Node :=
  ast.Other [ast.Other [node (call "gotext" "Get" 9%Z [lit "bye"])]].

Definition host : Host :=
  {| strconv_Unquote := Unquote;
     path_Join := Join;
     os_OpenFile := λ _, true;
     os_Stat := λ p, if String.eqb p "pkg" then Some true
                     else if String.eqb p "pkg/a.go" || String.eqb p "pkg/b.go" then Some false
                     else None;
     parser_ParseFile := λ p,
       if String.eqb p "pkg/a.go" then Some (lines_of p, a_go)
       else if String.eqb p "pkg/b.go" then Some (lines_of p, b_go)
       else None;
     parser_ParseDir := λ p,
       if String.eqb p "pkg"
       then Some {[ "main" := {[ "pkg/a.go" := a_go; "pkg/b.go" := b_go ]} ]}
       else None |}.

(** The command line [xgotext pkg/a.go] and the state in which [main]
    starts to parse. *)
Definition args_file : list string := ["xgotext"; "pkg/a.go"].
Definition started (a1 : string) : State := set_dirName a1 initial.

(** The call [f()], which is neither a literal nor an identifier. *)
Definition f_call : ast.Node :=
  ast.CallExpr (ast.Ident (ident "f" (Some {| ast.Kind := ast.Fun |}))) 20%Z [].

(** An identifier the parser did not resolve, such as a variable that
    another file of the package declares. *)
Definition unresolved (x : string) : ast.Node := ast.Ident (ident x None).

(** [gotext.GetNC("%d apple", "%d apples", f(), "fruit")] *)
Definition getnc_call : CallExpr :=
  call "gotext" "GetNC" 7%Z [lit "%d apple"; lit "%d apples"; f_call; lit "fruit"].

(** [gotext.GetNDC("app", "%d apple", "%d apples", f(), "fruit")] *)
Definition getndc_call : CallExpr :=
  call "gotext" "GetNDC" 8%Z
    [lit "app"; lit "%d apple"; lit "%d apples"; f_call; lit "fruit"].

(** [gotext.GetN("1 item", "%d items", f())] *)
Definition getn_call : CallExpr :=
  call "gotext" "GetN" 9%Z [lit "1 item"; lit "%d items"; f_call].

(** [gotext.GetN("1 item", "%d items", n)] with [n] unresolved *)
Definition getn_unresolved : CallExpr :=
  call "gotext" "GetN" 9%Z [lit "1 item"; lit "%d items"; unresolved "n"].

(** The content of the catalog of domain [d] at the end of a computation. *)
Definition catalog {A} (r : Res A) (d : string) : option string :=
  contents <$> stream (final r) d.

(** [gotext.GetNDC("app", "%d apple", "%d apples", n, "fruit")] *)
Definition getndc_matched : CallExpr :=
  call "gotext" "GetNDC" 8%Z
    [lit "app"; lit "%d apple"; lit "%d apples"; var "n"; lit "fruit"].





(** [a.b.Get("x")]: the receiver is a selector expression. *)
Definition chained_call : CallExpr :=
  {| Fun := ast.SelectorExpr
              (ast.SelectorExpr (ast.Ident (ident "a" None)) (ident "b" None))
              (ident "Get" None);
     Lparen := 6%Z; Args := [lit "x"] |}.

(** [fmt.Println("x")]: a selector call of another name. *)
Definition println_call : CallExpr := call "fmt" "Println" 3%Z [lit "x"].

(** [gotext.Get(x)]: the message is not a literal. *)
Definition get_variable : CallExpr := call "gotext" "Get" 3%Z [var "x"].

(** [gotext.Get("hello")] and the same call with two more arguments. *)
Definition get_hello : CallExpr := call "gotext" "Get" 5%Z [lit "hello"].

(** [gotext.GetC("open", "menu")] *)
Definition getc_call : CallExpr := call "gotext" "GetC" 6%Z [lit "open"; lit "menu"].

(** A file whose only call is [fmt.Println("x")], and a file that does not
    parse. *)
Definition c_go : ast.Node := ast.Other [ast.Other [node println_call]].

(** The host of the examples with one more file, [pkg/c.go], and nothing
    else changed; [pkg/broken.go] does not parse. *)
Definition host2 : Host :=
  {| strconv_Unquote := Unquote;
     path_Join := Join;
     os_OpenFile := λ p, negb (String.eqb p "locked.po");
     os_Stat := os_Stat host;
     parser_ParseFile := λ p,
       if String.eqb p "pkg/c.go" then Some (lines_of p, c_go)
       else parser_ParseFile host p;
     parser_ParseDir := λ p,
       if String.eqb p "empty" then Some ∅ else parser_ParseDir host p |}.

End demo.

(** * Properties *)


(** ** Writing to an open file *)

Lemma File_Write_eq f b st : File_Write f b st = Ok tt (append_chunks f [b] st).
Proof. reflexivity. Qed.

Lemma append_chunks_app f cs1 cs2 st :
  append_chunks f cs2 (append_chunks f cs1 st) = append_chunks f (cs1 ++ cs2) st.
Proof.
  unfold append_chunks, set_openFiles; simpl. f_equal.
  rewrite list_alter_alter_eq. apply list_alter_ext; [|done].
  intros o _. simpl. by rewrite <- app_assoc.
Qed.

Lemma alter_last {A} (g : A → A) (l : list A) (x : A) :
  alter g (length l) (l ++ [x]) = l ++ [g x].
Proof.
  replace (length l) with (length l + 0) by lia. by rewrite alter_app_r.
Qed.

Lemma append_chunks_domainFiles f cs st :
  domainFiles (append_chunks f cs st) = domainFiles st.
Proof. reflexivity. Qed.

Lemma append_chunks_lookup_ne f g cs st :
  f ≠ g → openFiles (append_chunks f cs st) !! g = openFiles st !! g.
Proof.
  intros Hne. unfold append_chunks, set_openFiles. cbn [openFiles].
  by apply list_lookup_alter_ne.
Qed.

Lemma append_chunks_lookup f cs st o :
  openFiles st !! f = Some o →
  openFiles (append_chunks f cs st) !! f
  = Some {| name := name o; written := written o ++ cs |}.
Proof.
  intros E. unfold append_chunks, set_openFiles. cbn [openFiles].
  by rewrite list_lookup_alter_eq, E.
Qed.

Lemma string_app_assoc (s1 s2 s3 : string) :
  (s1 +:+ s2) +:+ s3 = s1 +:+ (s2 +:+ s3).
Proof.
  induction s1 as [|a s1 IH]; [done|].
  change (String a ((s1 +:+ s2) +:+ s3) = String a (s1 +:+ (s2 +:+ s3))).
  by rewrite IH.
Qed.

Lemma string_app_nil_r (s : string) : s +:+ EmptyString = s.
Proof.
  induction s as [|a s IH]; [done|].
  change (String a (s +:+ EmptyString) = String a s). by rewrite IH.
Qed.

Lemma flatten_app l1 l2 : flatten (l1 ++ l2) = flatten l1 +:+ flatten l2.
Proof.
  induction l1 as [|x l1 IH]; [done|].
  change (x +:+ flatten (l1 ++ l2) = (x +:+ flatten l1) +:+ flatten l2).
  by rewrite IH, string_app_assoc.
Qed.

(** ** The registry *)

Section Registry.

Context (H : Host).

Lemma getDomainFile_cached d f st :
  domainFiles st !! d = Some f → getDomainFile H d st = Ok f st.
Proof.
  intros E. unfold getDomainFile, mbind, M_bind, get. simpl. by rewrite E.
Qed.

Lemma getDomainFile_create d st :
  domainFiles st !! d = None →
  os_OpenFile H (path_Join H (outputDir st) (d +:+ ".po")) = true →
  getDomainFile H d st = Ok (length (openFiles st)) (created H d st).
Proof.
  intros E Ho. unfold getDomainFile, mbind, M_bind, get. simpl. rewrite E. simpl.
  rewrite Ho. simpl. unfold created, set_domainFiles, set_openFiles. simpl.
  do 2 f_equal.
  by rewrite alter_last.
Qed.

Lemma getDomainFile_refused d st :
  domainFiles st !! d = None →
  os_OpenFile H (path_Join H (outputDir st) (d +:+ ".po")) = false →
  getDomainFile H d st = Abort (Fatal OpenError) st.
Proof.
  intros E Ho. unfold getDomainFile, mbind, M_bind, get. simpl. rewrite E. simpl.
  by rewrite Ho.
Qed.

End Registry.

(** ** The writer functions *)

Section WriterFacts.

Context (H : Host).

(** A resolve of [d] leaves [d] registered with the stream it returns. *)
Lemma getDomainFile_registered d st f st1 :
  getDomainFile H d st = Ok f st1 → domainFiles st1 !! d = Some f.
Proof.
  destruct (domainFiles st !! d) as [g|] eqn:E.
  - rewrite (getDomainFile_cached H d g st E). intros [= <- <-]. done.
  - destruct (os_OpenFile H (path_Join H (outputDir st) (d +:+ ".po"))) eqn:Ho.
    + rewrite (getDomainFile_create H d st E Ho). intros [= <- <-].
      unfold created, set_domainFiles. cbn [domainFiles]. apply lookup_insert_eq.
    + by rewrite (getDomainFile_refused H d st E Ho).
Qed.

(** Two emissions to one domain are one emission of all the chunks: the
    second resolve finds the stream of the first. *)
Lemma emit_emit d cs1 cs2 st :
  (emit H d cs1;; emit H d cs2) st = emit H d (cs1 ++ cs2) st.
Proof.
  unfold emit, mbind, M_bind, modify.
  destruct (getDomainFile H d st) as [f st1|k st1] eqn:E; [|done].
  apply getDomainFile_registered in E.
  rewrite (getDomainFile_cached H d f (append_chunks f cs1 st1)) by done.
  by rewrite append_chunks_app.
Qed.

Lemma write_emit dom msgid st :
  write H dom msgid st
  = emit H dom [nl +:+ "msgid " +:+ msgid; nl +:+ "msgstr " +:+ dq +:+ dq; nl] st.
Proof.
  unfold write, emit, mbind, M_bind, modify.
  destruct (getDomainFile H dom st) as [f st1|k st1]; [|done].
  repeat (rewrite File_Write_eq; cbv beta iota).
  by rewrite !append_chunks_app.
Qed.

Lemma writePlural_emit dom msgid msgidPlural st :
  writePlural H dom msgid msgidPlural st
  = emit H dom [nl +:+ "msgid " +:+ msgid; nl +:+ "msgid_plural " +:+ msgidPlural;
                nl +:+ "msgstr[0] " +:+ dq +:+ dq; nl +:+ "msgstr[1] " +:+ dq +:+ dq; nl] st.
Proof.
  unfold writePlural, emit, mbind, M_bind, modify.
  destruct (getDomainFile H dom st) as [f st1|k st1]; [|done].
  repeat (rewrite File_Write_eq; cbv beta iota).
  by rewrite !append_chunks_app.
Qed.

Lemma writeContext_emit dom ctx st :
  writeContext H dom ctx st = emit H dom [nl +:+ "msgctxt " +:+ ctx] st.
Proof. reflexivity. Qed.

Lemma writeComments_emit dom file call st :
  writeComments H dom file call st
  = emit H dom [nl +:+ "#: " +:+ file; nl +:+ "#. " +:+ call] st.
Proof.
  unfold writeComments, emit, mbind, M_bind, modify.
  destruct (getDomainFile H dom st) as [f st1|k st1]; [|done].
  repeat (rewrite File_Write_eq; cbv beta iota).
  by rewrite !append_chunks_app.
Qed.

(** Rewriting under a bind. *)
Lemma bind_ext {A B} (m1 m2 : M A) (k1 k2 : A → M B) st :
  m1 st = m2 st → (∀ a s, k1 a s = k2 a s) → (m1 ≫= k1) st = (m2 ≫= k2) st.
Proof.
  intros E Ek. unfold mbind, M_bind. rewrite E. destruct (m2 st); [apply Ek|done].
Qed.

(** The writer resolves the stream of the record's domain and writes the
    chunks of the record to it. *)
Lemma writeRecord_emit r st :
  writeRecord H r st = emit H (domain r) (record_chunks r) st.
Proof.
  unfold writeRecord, record_chunks.
  destruct (context r) as [c|], (msgidPlural r) as [p|].
  - rewrite <- emit_emit.
    apply bind_ext; [apply writeComments_emit|]. intros _ s.
    rewrite <- emit_emit.
    apply bind_ext; [apply writeContext_emit|]. intros _ s'.
    apply writePlural_emit.
  - rewrite <- emit_emit.
    apply bind_ext; [apply writeComments_emit|]. intros _ s.
    rewrite <- emit_emit.
    apply bind_ext; [apply writeContext_emit|]. intros _ s'.
    apply write_emit.
  - rewrite <- emit_emit.
    apply bind_ext; [apply writeComments_emit|]. intros _ s.
    apply writePlural_emit.
  - rewrite <- emit_emit.
    apply bind_ext; [apply writeComments_emit|]. intros _ s.
    apply write_emit.
Qed.

End WriterFacts.

(** The chunks of a record, put end to end, are the text of its block. *)
Lemma record_chunks_text r : flatten (record_chunks r) = entry_text r.
Proof.
  unfold record_chunks, entry_text, entry_lines.
  destruct (context r), (msgidPlural r); cbn [flatten foldr fmap list_fmap app];
    rewrite ?string_app_assoc, ?string_app_nil_r; reflexivity.
Qed.

(** ** The matcher: the parse functions against the signature table *)

Section MatcherFacts.

Context (H : Host).

(** The writer changes the registry and the open files only. *)
Lemma emit_globals d cs st u st1 :
  emit H d cs st = Ok u st1 →
  currentDomain st1 = currentDomain st ∧ fset st1 = fset st
  ∧ outputDir st1 = outputDir st ∧ dirName st1 = dirName st
  ∧ currentFile st1 = currentFile st.
Proof.
  unfold emit, mbind, M_bind, modify.
  destruct (domainFiles st !! d) as [g|] eqn:E.
  - rewrite (getDomainFile_cached H d g st E). by intros [= <- <-].
  - destruct (os_OpenFile H (path_Join H (outputDir st) (d +:+ ".po"))) eqn:Ho.
    + rewrite (getDomainFile_create H d st E Ho). by intros [= <- <-].
    + by rewrite (getDomainFile_refused H d st E Ho).
Qed.

Lemma writeComments_currentDomain dom file call st u st1 :
  writeComments H dom file call st = Ok u st1 → currentDomain st1 = currentDomain st.
Proof. rewrite writeComments_emit. intros E. by apply emit_globals in E as (? & _). Qed.

Lemma writeContext_currentDomain dom ctx st u st1 :
  writeContext H dom ctx st = Ok u st1 → currentDomain st1 = currentDomain st.
Proof. rewrite writeContext_emit. intros E. by apply emit_globals in E as (? & _). Qed.

Local Arguments writeComments : simpl never.
Local Arguments writeContext : simpl never.
Local Arguments write : simpl never.
Local Arguments writePlural : simpl never.
Local Arguments pretty : simpl never.

Lemma selector_inv call s :
  selector call = Some s →
  ∃ x o, Fun call = ast.SelectorExpr x {| ast.Name := s; ast.Obj := o |}.
Proof.
  unfold selector. destruct (Fun call) as [| |x [n o]| |]; try discriminate.
  intros [= <-]. by exists x, o.
Qed.

(** The tail of a parse function against the writer: both run
    [writeComments] first, and the parse function reads [currentDomain]
    again afterwards. *)
Ltac tail :=
  try unfold index;
  unfold sprintPosition, sprintCall, unquoteDomain, enact, writeRecord, location_text;
  unfold mbind, M_bind, mret, M_ret, get, die;
  cbn;
  repeat match goal with
  | |- context [writeComments ?h ?d ?f ?c ?s] =>
      let E := fresh "E" in
      destruct (writeComments h d f c s) as [[] ?|? ?] eqn:E; [|reflexivity];
      apply writeComments_currentDomain in E; try rewrite E
  | |- context [writeContext ?h ?d ?c ?s] =>
      let E := fresh "E" in
      destruct (writeContext h d c s) as [[] ?|? ?] eqn:E; [|reflexivity];
      apply writeContext_currentDomain in E; try rewrite E
  end;
  first [reflexivity | congruence].

Ltac start Hs :=
  let x := fresh "x" in let o := fresh "o" in let Hf := fresh "Hf" in
  destruct (selector_inv _ _ Hs) as (x & o & Hf);
  unfold matcher; rewrite Hs; clear Hs;
  match goal with call : CallExpr |- _ =>
    destruct call as [fn lp args]; cbn [Fun] in Hf; subst fn end;
  cbn [signature_for List.find signatures methodName String.eqb Ascii.eqb Bool.eqb];
  unfold decode;
  cbn [Args Fun Lparen minArgCount].

(** One case distinction on whatever blocks the computation of the two
    sides: an argument, the kind of a literal, the object of an
    identifier, the answer of [strconv.Unquote], the receiver. *)
Ltac split_on_blocked :=
  match goal with
  | |- context [match ?n with ast.BasicLit _ _ => _ | _ => _ end] => is_var n; destruct n
  | |- context [token.Token_eqb ?k _] => is_var k; destruct k
  | |- context [match ?k with token.STRING => _ | _ => _ end] => is_var k; destruct k
  | |- context [countShape ?n] => is_var n; destruct n
  | |- context [ast.Obj ?i] => is_var i; destruct i as [? [[[]]|]]
  | |- context [strconv_Unquote H ?v] => destruct (strconv_Unquote H v)
  end.

Ltac crunch :=
  repeat (try unfold index; try unfold unquoteDomain;
          unfold mbind, M_bind, mret, M_ret, get, die; cbn;
          first [reflexivity | split_on_blocked]);
  tail.

Lemma parseGet_decode call st :
  selector call = Some "Get" →
  parseGet H call st = enact H (matcher H st call) st.
Proof.
  intros Hs. start Hs. unfold parseGet. cbn [Args].
  destruct args as [|? args]; [reflexivity|].
  crunch.
Qed.

Lemma parseGetN_decode call st :
  selector call = Some "GetN" →
  parseGetN H call st = enact H (matcher H st call) st.
Proof.
  intros Hs. start Hs. unfold parseGetN. cbn [Args].
  do 3 (destruct args as [|? args]; [reflexivity|]).
  crunch.
Qed.

Lemma parseGetD_decode call st :
  selector call = Some "GetD" →
  parseGetD H call st = enact H (matcher H st call) st.
Proof.
  intros Hs. start Hs. unfold parseGetD. cbn [Args].
  do 2 (destruct args as [|? args]; [reflexivity|]).
  crunch.
Qed.

Lemma parseGetND_decode call st :
  selector call = Some "GetND" →
  parseGetND H call st = enact H (matcher H st call) st.
Proof.
  intros Hs. start Hs. unfold parseGetND. cbn [Args].
  do 3 (destruct args as [|? args]; [reflexivity|]).
  crunch.
Qed.

Lemma parseGetC_decode call st :
  selector call = Some "GetC" →
  parseGetC H call st = enact H (matcher H st call) st.
Proof.
  intros Hs. start Hs. unfold parseGetC. cbn [Args].
  do 2 (destruct args as [|? args]; [reflexivity|]).
  crunch.
Qed.

Lemma parseGetNC_decode call st :
  selector call = Some "GetNC" →
  parseGetNC H call st = enact H (matcher H st call) st.
Proof.
  intros Hs. start Hs. unfold parseGetNC. cbn [Args].
  do 4 (destruct args as [|? args]; [reflexivity|]).
  crunch.
Qed.

Lemma parseGetDC_decode call st :
  selector call = Some "GetDC" →
  parseGetDC H call st = enact H (matcher H st call) st.
Proof.
  intros Hs. start Hs. unfold parseGetDC. cbn [Args].
  do 3 (destruct args as [|? args]; [reflexivity|]).
  crunch.
Qed.

Lemma parseGetNDC_decode call st :
  selector call = Some "GetNDC" →
  parseGetNDC H call st = enact H (matcher H st call) st.
Proof.
  intros Hs. start Hs. unfold parseGetNDC. cbn [Args].
  do 5 (destruct args as [|? args]; [reflexivity|]).
  crunch.
Qed.

(** An unknown selector name has no row in the table. *)
Lemma signature_for_none s :
  String.eqb s "Get" = false → String.eqb s "GetN" = false →
  String.eqb s "GetD" = false → String.eqb s "GetND" = false →
  String.eqb s "GetC" = false → String.eqb s "GetNC" = false →
  String.eqb s "GetDC" = false → String.eqb s "GetNDC" = false →
  signature_for s = None.
Proof.
  intros E1 E2 E3 E4 E5 E6 E7 E8. unfold signature_for.
  cbn [List.find signatures methodName].
  rewrite (String.eqb_sym "Get"), E1, (String.eqb_sym "GetN"), E2,
    (String.eqb_sym "GetD"), E3, (String.eqb_sym "GetND"), E4,
    (String.eqb_sym "GetC"), E5, (String.eqb_sym "GetNC"), E6,
    (String.eqb_sym "GetDC"), E7, (String.eqb_sym "GetNDC"), E8.
  reflexivity.
Qed.

(** [inspectCallExpr] does to the process what the matcher decides: it
    leaves it alone, writes the record, or ends it. *)
Lemma inspectCallExpr_matcher call st :
  inspectCallExpr H call st = enact H (matcher H st call) st.
Proof.
  destruct (selector call) as [s|] eqn:Hs.
  - destruct (selector_inv _ _ Hs) as (x & o & Hf).
    unfold inspectCallExpr. rewrite Hf. cbn [ast.String ast.Name].
    destruct (String.eqb s "Get") eqn:E1;
      [apply String.eqb_eq in E1; subst s; by apply parseGet_decode|].
    destruct (String.eqb s "GetN") eqn:E2;
      [apply String.eqb_eq in E2; subst s; by apply parseGetN_decode|].
    destruct (String.eqb s "GetD") eqn:E3;
      [apply String.eqb_eq in E3; subst s; by apply parseGetD_decode|].
    destruct (String.eqb s "GetND") eqn:E4;
      [apply String.eqb_eq in E4; subst s; by apply parseGetND_decode|].
    destruct (String.eqb s "GetC") eqn:E5;
      [apply String.eqb_eq in E5; subst s; by apply parseGetC_decode|].
    destruct (String.eqb s "GetNC") eqn:E6;
      [apply String.eqb_eq in E6; subst s; by apply parseGetNC_decode|].
    destruct (String.eqb s "GetDC") eqn:E7;
      [apply String.eqb_eq in E7; subst s; by apply parseGetDC_decode|].
    destruct (String.eqb s "GetNDC") eqn:E8;
      [apply String.eqb_eq in E8; subst s; by apply parseGetNDC_decode|].
    unfold matcher. rewrite Hs, signature_for_none by done. reflexivity.
  - unfold matcher. rewrite Hs. unfold inspectCallExpr.
    unfold selector in Hs. by destruct (Fun call).
Qed.

End MatcherFacts.

(** ** Induction on syntax trees *)

Lemma Node_induction (P : ast.Node → Prop) :
  (∀ k v, P (ast.BasicLit k v)) →
  (∀ id, P (ast.Ident id)) →
  (∀ x sel, P x → P (ast.SelectorExpr x sel)) →
  (∀ fn lp args, P fn → Forall P args → P (ast.CallExpr fn lp args)) →
  (∀ children, Forall P children → P (ast.Other children)) →
  ∀ n, P n.
Proof.
  intros Hlit Hid Hsel Hcall Hother.
  refine (fix IH (n : ast.Node) : P n :=
    match n with
    | ast.BasicLit k v => Hlit k v
    | ast.Ident id => Hid id
    | ast.SelectorExpr x sel => Hsel x sel (IH x)
    | ast.CallExpr fn lp args =>
        Hcall fn lp args (IH fn)
          ((fix all (l : list ast.Node) : Forall P l :=
              match l with
              | [] => @List.Forall_nil _ P
              | x :: r => @List.Forall_cons _ P x r (IH x) (all r)
              end) args)
    | ast.Other children =>
        Hother children
          ((fix all (l : list ast.Node) : Forall P l :=
              match l with
              | [] => @List.Forall_nil _ P
              | x :: r => @List.Forall_cons _ P x r (IH x) (all r)
              end) children)
    end).
Qed.

(** ** Properties kept by every step of a run *)

Section Preservation.

Context (H : Host) (P : State → Prop).

Lemma preserves_ret {A} (a : A) : preserves P (mret a : M A).
Proof. by intros st. Qed.

Lemma preserves_die {A} k : preserves P (die k : M A).
Proof. by intros st. Qed.

Lemma preserves_bind {A B} (m : M A) (k : A → M B) :
  preserves P m → (∀ a, preserves P (k a)) → preserves P (m ≫= k).
Proof.
  intros Hm Hk st HP. specialize (Hm st HP).
  unfold mbind, M_bind. destruct (m st) as [a st1|e st1]; [by apply Hk|done].
Qed.

Lemma preserves_modify (g : State → State) :
  (∀ st, P st → P (g st)) → preserves P (modify g).
Proof. intros Hg st HP. by apply Hg. Qed.

(** What [inspectCallExpr] keeps, [inspectFile] keeps. *)
Lemma inspectFile_preserves :
  (∀ call, preserves P (inspectCallExpr H call)) →
  ∀ n, preserves P (inspectFile H n).
Proof.
  intros Hc [[| | |fn lp args|]|]; cbn [inspectFile]; try apply preserves_ret.
  apply preserves_bind; [apply Hc|]. intros _. apply preserves_ret.
Qed.

(** What the visitor keeps, the walk keeps. *)
Lemma Inspect_preserves (f : option ast.Node → M bool) :
  (∀ n, preserves P (f n)) → ∀ node, preserves P (Inspect node f).
Proof.
  intros Hf.
  assert (Hlist : ∀ l, Forall (λ n, preserves P (Inspect n f)) l →
    preserves P ((fix walkList (l : list ast.Node) : M unit :=
                    match l with
                    | [] => mret tt
                    | x :: r => Inspect x f;; walkList r
                    end) l)).
  { induction 1 as [|x r Hx _ IH]; [apply preserves_ret|].
    apply preserves_bind; [done|]. by intros _. }
  assert (Hend : preserves P (f None;; mret tt)).
  { apply preserves_bind; [apply Hf|]. intros _. apply preserves_ret. }
  induction node as [k v|id|x sel IHx|fn lp args IHfn IHargs|children IHc]
    using Node_induction; cbn [Inspect];
    (apply preserves_bind; [apply Hf|]); intros [|]; try apply preserves_ret;
    (apply preserves_bind; [|by intros _]).
  - apply preserves_ret.
  - apply preserves_ret.
  - apply preserves_bind; [done|]. intros _.
    apply preserves_bind; [apply Hf|]. intros [|]; [done|apply preserves_ret].
  - apply preserves_bind; [done|]. intros _. by apply Hlist.
  - by apply Hlist.
Qed.

End Preservation.

(** ** The registry invariant *)

(** No chunk of a record is the header: each starts with a line break. *)
Lemma record_chunks_not_header r : h ∉ record_chunks r.
Proof.
  assert (Hnl : ∀ c, c ∈ record_chunks r → ∃ t, c = String (Ascii.ascii_of_nat 10) t).
  { intros c. unfold record_chunks.
    destruct (context r), (msgidPlural r);
      rewrite !elem_of_app, ?elem_of_cons, ?elem_of_nil;
      intros Hc; repeat (destruct Hc as [Hc|Hc]; try done); subst c; by eexists. }
  intros Hin. destruct (Hnl _ Hin) as [t Ht]. discriminate Ht.
Qed.

Section RegistryInvariant.

Context (H : Host).

(** The three ways an emission can go. *)
Lemma emit_cases d cs st :
  (∃ f, domainFiles st !! d = Some f
        ∧ emit H d cs st = Ok tt (append_chunks f cs st))
  ∨ (domainFiles st !! d = None
     ∧ os_OpenFile H (path_Join H (outputDir st) (d +:+ ".po")) = true
     ∧ emit H d cs st = Ok tt (append_chunks (length (openFiles st)) cs (created H d st)))
  ∨ (domainFiles st !! d = None
     ∧ os_OpenFile H (path_Join H (outputDir st) (d +:+ ".po")) = false
     ∧ emit H d cs st = Abort (Fatal OpenError) st).
Proof.
  unfold emit, mbind, M_bind, modify.
  destruct (domainFiles st !! d) as [f|] eqn:E.
  - left. exists f. by rewrite (getDomainFile_cached H d f st E).
  - right. destruct (os_OpenFile H (path_Join H (outputDir st) (d +:+ ".po"))) eqn:Ho.
    + left. by rewrite (getDomainFile_create H d st E Ho).
    + right. by rewrite (getDomainFile_refused H d st E Ho).
Qed.

Lemma registry_ok_lt st d f :
  registry_ok H st → domainFiles st !! d = Some f → f < length (openFiles st).
Proof.
  intros [Hreg _] Hd. destruct (Hreg d f Hd) as (o & cs & Ho & _).
  by apply lookup_lt_Some in Ho.
Qed.

(** Writing chunks other than the header to a registered stream keeps the
    invariant. *)
Lemma append_chunks_registry_ok f cs st :
  h ∉ cs → registry_ok H st → registry_ok H (append_chunks f cs st).
Proof.
  intros Hcs [Hreg Hinj]. split; [|done].
  intros d g Hd. cbn [append_chunks set_openFiles domainFiles] in Hd.
  destruct (Hreg d g Hd) as (o & cs0 & Ho & Hn & Hw & Hh).
  destruct (decide (f = g)) as [->|Hne].
  - exists {| name := name o; written := written o ++ cs |}, (cs0 ++ cs).
    split; [by apply append_chunks_lookup|].
    split; [done|]. cbn [written]. rewrite Hw. split; [done|].
    rewrite elem_of_app. tauto.
  - exists o, cs0. by rewrite append_chunks_lookup_ne.
Qed.

(** The first resolve of a domain keeps the invariant. *)
Lemma created_registry_ok d st :
  domainFiles st !! d = None → registry_ok H st → registry_ok H (created H d st).
Proof.
  intros Hnone Hok. pose proof Hok as [Hreg Hinj]. split.
  - intros d' g. unfold created. cbn [set_domainFiles set_openFiles domainFiles openFiles outputDir].
    destruct (decide (d = d')) as [<-|Hne].
    + rewrite lookup_insert_eq. intros [= <-].
      eexists _, []. rewrite lookup_app_r, Nat.sub_diag by lia.
      split; [done|]. split; [done|]. split; [done|]. apply not_elem_of_nil.
    + rewrite lookup_insert_ne by done. intros Hd.
      destruct (Hreg d' g Hd) as (o & cs0 & Ho & Hn & Hw & Hh).
      exists o, cs0. rewrite lookup_app_l by (by apply lookup_lt_Some in Ho). done.
  - intros d1 d2 g. unfold created. cbn [set_domainFiles set_openFiles domainFiles].
    destruct (decide (d = d1)) as [<-|Hne1], (decide (d = d2)) as [<-|Hne2];
      rewrite ?lookup_insert_eq, ?lookup_insert_ne by done; try done.
    + intros [= <-] Hd. apply (registry_ok_lt _ _ _ Hok) in Hd. lia.
    + intros Hd [= <-]. apply (registry_ok_lt _ _ _ Hok) in Hd. lia.
    + apply Hinj.
Qed.

Lemma emit_registry_ok d cs :
  h ∉ cs → preserves (registry_ok H) (emit H d cs).
Proof.
  intros Hcs st Hok.
  destruct (emit_cases d cs st) as [(f & _ & ->)|[(Hn & _ & ->)|(_ & _ & ->)]];
    cbn [final]; [by apply append_chunks_registry_ok| |done].
  apply append_chunks_registry_ok; [done|]. by apply created_registry_ok.
Qed.

Lemma writeRecord_registry_ok r : preserves (registry_ok H) (writeRecord H r).
Proof.
  intros st Hok. rewrite writeRecord_emit.
  by apply emit_registry_ok; [apply record_chunks_not_header|].
Qed.

Lemma inspectCallExpr_registry_ok call :
  preserves (registry_ok H) (inspectCallExpr H call).
Proof.
  intros st Hok. rewrite inspectCallExpr_matcher.
  destruct (matcher H st call) as [|r|k]; cbn [enact]; [done| |done].
  by apply writeRecord_registry_ok.
Qed.

Lemma parseFile_registry_ok fileName :
  preserves (registry_ok H) (parseFile H fileName).
Proof.
  unfold parseFile.
  apply preserves_bind; [by apply preserves_modify|]. intros _.
  apply preserves_bind; [by apply preserves_modify|]. intros _.
  destruct (parser_ParseFile H fileName) as [[fs node]|]; [|apply preserves_die].
  apply preserves_bind; [by apply preserves_modify|]. intros _.
  apply Inspect_preserves, inspectFile_preserves, inspectCallExpr_registry_ok.
Qed.

Lemma parseFiles_registry_ok fns :
  preserves (registry_ok H) (parseFiles H fns).
Proof.
  induction fns as [|fn fns IH]; [apply preserves_ret|].
  cbn [parseFiles]. apply preserves_bind; [apply parseFile_registry_ok|]. by intros _.
Qed.

Lemma parsePkgs_registry_ok pkgs st r :
  parsePkgs H pkgs st r → registry_ok H st → registry_ok H (final r).
Proof.
  induction 1 as [st|pkg pkgs fns st st1 r _ Hfns _ IH|pkg pkgs fns st k st1 _ Hfns];
    intros Hok; [done| |].
  - apply IH. by apply (parseFiles_registry_ok fns) in Hok; rewrite Hfns in Hok.
  - by apply (parseFiles_registry_ok fns) in Hok; rewrite Hfns in Hok.
Qed.

Lemma parseDir_registry_ok d st r :
  parseDir H d st r → registry_ok H st → registry_ok H (final r).
Proof.
  intros [_|pkgs order r' _ _ Hp]; [done|]. exact (parsePkgs_registry_ok _ _ _ Hp).
Qed.

(** A registration, once made, stays. *)
Lemma inspectCallExpr_registration_kept call st d f :
  domainFiles st !! d = Some f →
  domainFiles (final (inspectCallExpr H call st)) !! d = Some f.
Proof.
  intros Hd. rewrite inspectCallExpr_matcher.
  destruct (matcher H st call) as [|r|k]; cbn [enact]; [done| |done].
  rewrite writeRecord_emit.
  destruct (emit_cases (domain r) (record_chunks r) st)
    as [(g & _ & ->)|[(Hn & _ & ->)|(_ & _ & ->)]]; cbn [final]; [done| |done].
  rewrite append_chunks_domainFiles. unfold created. cbn [set_domainFiles domainFiles].
  rewrite lookup_insert_ne; [done|]. intros E. rewrite E in Hn. congruence.
Qed.

Lemma registry_ok_empty st : domainFiles st = ∅ → registry_ok H st.
Proof.
  intros E. split; intros ?; intros; rewrite E in *; by simplify_map_eq.
Qed.

(** [main_args] leaves the registry empty. *)
Lemma main_args_registry args : domainFiles (final (main_args H args initial)) = ∅.
Proof.
  unfold main_args, mbind, M_bind, modify, die, index, mret, M_ret.
  cbn [final].
  destruct (length args <? 2)%nat; [done|].
  destruct (2 <? length args)%nat.
  - destruct (args !! 2); [|done].
    destruct (args !! 1) as [a1|]; [|done].
    by destruct (os_Stat H a1).
  - destruct (args !! 1) as [a1|]; [|done].
    by destruct (os_Stat H a1).
Qed.

(** Every run of the program ends in a state that satisfies the
    invariant. *)
Lemma main_registry_ok args r : main H args r → registry_ok H (final r).
Proof.
  pose proof (main_args_registry args) as He.
  intros [k st E|st r' E Hd|st E]; rewrite E in He; cbn [final] in He.
  - by apply registry_ok_empty.
  - apply (parseDir_registry_ok _ _ _ Hd). by apply registry_ok_empty.
  - apply parseFile_registry_ok. by apply registry_ok_empty.
Qed.

End RegistryInvariant.

(** ** Reading the verdict of the matcher *)

Lemma stringAt_lt args i v : stringAt args i = Some v → (i < length args)%nat.
Proof.
  unfold stringAt. destruct (args !! i) as [n|] eqn:E; [|done].
  intros _. by apply lookup_lt_Some in E.
Qed.

Section Verdicts.

Context (H : Host).

Lemma matcher_signature st call s sig :
  selector call = Some s → signature_for s = Some sig →
  matcher H st call = decode H sig st call.
Proof. intros Hs Hsig. unfold matcher. by rewrite Hs, Hsig. Qed.

Lemma decode_matched s st call d x :
  (minArgCount s ≤ length (Args call))%nat →
  strings_ok s (Args call) = true →
  count_check s (Args call) = CountAccepted →
  decode_domain H s st (Args call) = Some d →
  receiver call = Some x →
  decode H s st call
  = Matched {| domain := d;
               msgid := default EmptyString (stringAt (Args call) (msgidPosition s));
               msgidPlural := pluralPosition s ≫= stringAt (Args call);
               context := contextArgPosition s ≫= stringAt (Args call);
               location := fset st (Lparen call);
               callLabel := x +:+ "." +:+ methodName s |}.
Proof.
  intros Hlen Hstr Hcount Hdom Hrecv. unfold decode.
  replace (length (Args call) <? minArgCount s)%nat with false
    by (symmetry; apply Nat.ltb_ge; lia).
  by rewrite Hstr, Hcount, Hdom, Hrecv.
Qed.

Lemma decode_no_receiver s st call d :
  (minArgCount s ≤ length (Args call))%nat →
  strings_ok s (Args call) = true →
  count_check s (Args call) = CountAccepted →
  decode_domain H s st (Args call) = Some d →
  receiver call = None →
  decode H s st call = Aborted (Panic TypeAssertion).
Proof.
  intros Hlen Hstr Hcount Hdom Hrecv. unfold decode.
  replace (length (Args call) <? minArgCount s)%nat with false
    by (symmetry; apply Nat.ltb_ge; lia).
  by rewrite Hstr, Hcount, Hdom, Hrecv.
Qed.


(** A call site is left alone when its selector names no variant, when
    it has too few arguments, when a wanted position holds no string
    literal, and when the examined count argument has a rejected shape. *)
Lemma unknown_method_skipped st call :
  (∀ s, selector call = Some s → signature_for s = None) →
  inspectCallExpr H call st = Ok tt st.
Proof.
  intros Hn. rewrite inspectCallExpr_matcher. unfold matcher.
  destruct (selector call) as [s|]; [|done]. by rewrite (Hn s eq_refl).
Qed.

Lemma unmet_requirements_skipped s sig st call :
  selector call = Some s → signature_for s = Some sig →
  (length (Args call) < minArgCount sig)%nat
  ∨ strings_ok sig (Args call) = false
  ∨ count_check sig (Args call) = CountRejected →
  inspectCallExpr H call st = Ok tt st.
Proof.
  intros Hs Hsig Hcase.
  rewrite inspectCallExpr_matcher, (matcher_signature st call s sig Hs Hsig).
  unfold decode.
  destruct (Nat.ltb_spec (length (Args call)) (minArgCount sig)) as [|Hge]; [done|].
  destruct (strings_ok sig (Args call)); [|done]. cbn [negb].
  destruct Hcase as [?|[?|Hc]]; [lia|done|]. by rewrite Hc.
Qed.

(** The writer ends the process in one way only: a catalog file that
    cannot be opened. *)
Lemma writeRecord_abort r st k st1 :
  writeRecord H r st = Abort k st1 → k = Fatal OpenError ∧ st1 = st.
Proof.
  rewrite writeRecord_emit.
  destruct (emit_cases H (domain r) (record_chunks r) st)
    as [(f & _ & ->)|[(_ & _ & ->)|(_ & _ & ->)]]; [done|done|].
  by intros [= <- <-].
Qed.

End Verdicts.

(** ** The variants that take the domain from argument 0 *)


Lemma signature_for_name s sig : signature_for s = Some sig → methodName sig = s.
Proof.
  unfold signature_for. intros Hf. apply List.find_some in Hf as [_ Hf].
  by apply String.eqb_eq in Hf.
Qed.


(** ** The frame of an emission *)

Section Frame.

Context (H : Host).

Lemma created_domainFiles d st :
  domainFiles (created H d st) = <[d := length (openFiles st)]> (domainFiles st).
Proof. reflexivity. Qed.

Lemma created_openFiles d st :
  openFiles (created H d st)
  = openFiles st ++ [{| name := path_Join H (outputDir st) (d +:+ ".po");
                        written := [h] |}].
Proof. reflexivity. Qed.

(** An emission to domain [d] leaves the registration and the stream of
    every other domain as they were. *)
Lemma emit_frame d cs st d' :
  registry_ok H st → d' ≠ d →
  domainFiles (final (emit H d cs st)) !! d' = domainFiles st !! d'
  ∧ stream (final (emit H d cs st)) d' = stream st d'.
Proof.
  intros Hok Hne. pose proof Hok as [Hreg Hinj].
  destruct (emit_cases H d cs st) as [(f & Hf & ->)|[(Hn & _ & ->)|(_ & _ & ->)]];
    cbn [final]; [| |done].
  - split; [done|]. unfold stream. rewrite append_chunks_domainFiles.
    destruct (domainFiles st !! d') as [g|] eqn:Hg; [|done]. cbn [mbind option_bind].
    apply append_chunks_lookup_ne. intros ->. by apply Hne, (Hinj d' d g).
  - assert (Hd : domainFiles (created H d st) !! d' = domainFiles st !! d').
    { by rewrite created_domainFiles, lookup_insert_ne. }
    split; [by rewrite append_chunks_domainFiles|].
    unfold stream. rewrite append_chunks_domainFiles, Hd.
    destruct (domainFiles st !! d') as [g|] eqn:Hg; [|done]. cbn [mbind option_bind].
    pose proof (registry_ok_lt H st d' g Hok Hg) as Hlt.
    rewrite append_chunks_lookup_ne by lia.
    by rewrite created_openFiles, lookup_app_l.
Qed.

(** An emission that succeeds leaves, on the stream of its domain, what
    was there before (the header alone if the stream is new) followed by
    the chunks. *)
Lemma emit_target d cs st st' :
  registry_ok H st → emit H d cs st = Ok tt st' →
  ∃ o, stream st' d = Some o
       ∧ name o = path_Join H (outputDir st) (d +:+ ".po")
       ∧ written o = from_option written [h] (stream st d) ++ cs.
Proof.
  intros [Hreg _].
  destruct (emit_cases H d cs st) as [(f & Hf & ->)|[(Hn & _ & ->)|(_ & _ & ->)]];
    [| |done]; intros [= <-].
  - destruct (Hreg d f Hf) as (o & cs0 & Ho & Hname & _).
    exists {| name := name o; written := written o ++ cs |}.
    unfold stream. rewrite append_chunks_domainFiles, Hf. cbn [mbind option_bind].
    rewrite (append_chunks_lookup f cs st o Ho), Ho. done.
  - exists {| name := path_Join H (outputDir st) (d +:+ ".po"); written := [h] ++ cs |}.
    unfold stream at 2. rewrite Hn. cbn [mbind option_bind from_option].
    split; [|done].
    unfold stream.
    rewrite append_chunks_domainFiles, created_domainFiles, lookup_insert_eq.
    cbn [mbind option_bind].
    erewrite append_chunks_lookup;
      [|rewrite created_openFiles, lookup_app_r, Nat.sub_diag by lia; reflexivity].
    done.
Qed.

End Frame.

(** ** The order of a run *)

Section Order.

Context (H : Host).

Lemma inspectCalls_app l1 l2 st :
  inspectCalls H (l1 ++ l2) st = (inspectCalls H l1;; inspectCalls H l2) st.
Proof.
  revert st. induction l1 as [|c l1 IH]; intros st; [done|].
  cbn [app inspectCalls]. unfold mbind, M_bind in *.
  destruct (inspectCallExpr H c st) as [[] st1|k st1]; [apply IH|done].
Qed.

(** The walk of a tree with the visitor [inspectFile] runs
    [inspectCallExpr] on the call sites of the tree, in the order of
    [calls_of], and does nothing else. *)
Lemma Inspect_calls node st :
  Inspect node (inspectFile H) st = inspectCalls H (calls_of node) st.
Proof.
  revert st.
  induction node as [k v|id|x sel IHx|fn lp args IHfn IHargs|children IHc]
    using Node_induction; intros st; try reflexivity.
  - cbn [Inspect calls_of inspectFile]. unfold mbind, M_bind, mret, M_ret.
    rewrite IHx. by destruct (inspectCalls H (calls_of x) st) as [[] ?|].
  - cbn [Inspect calls_of inspectFile inspectCalls].
    unfold mbind, M_bind, mret, M_ret.
    destruct (inspectCallExpr H _ st) as [[] st1|k st1]; [|done].
    rewrite inspectCalls_app. unfold mbind, M_bind.
    rewrite IHfn. destruct (inspectCalls H (calls_of fn) st1) as [[] st2|k st2]; [|done].
    clear IHfn. revert st2.
    induction IHargs as [|a args Ha _ IH]; intros st2; [done|].
    rewrite inspectCalls_app. unfold mbind, M_bind.
    rewrite Ha. destruct (inspectCalls H (calls_of a) st2) as [[] st3|k st3]; [|done].
    apply IH.
  - cbn [Inspect calls_of inspectFile]. unfold mbind, M_bind, mret, M_ret.
    revert st.
    induction IHc as [|a args Ha _ IH]; intros st; [done|].
    rewrite inspectCalls_app. unfold mbind, M_bind.
    rewrite Ha. destruct (inspectCalls H (calls_of a) st) as [[] st3|k st3]; [|done].
    apply IH.
Qed.

Lemma parseFiles_app l1 l2 st :
  parseFiles H (l1 ++ l2) st = (parseFiles H l1;; parseFiles H l2) st.
Proof.
  revert st. induction l1 as [|c l1 IH]; intros st; [done|].
  cbn [app parseFiles]. unfold mbind, M_bind in *.
  destruct (parseFile H c st) as [[] st1|k st1]; [apply IH|done].
Qed.

Lemma visits_exists pkgs : ∃ fns, visits pkgs fns.
Proof.
  induction pkgs as [|pkg pkgs [rest IH]]; [exists []; constructor|].
  exists ((map_to_list pkg).*1 ++ rest). by constructor.
Qed.

(** The outcomes of the loops of [parseDir] are the outcomes of parsing
    the files one after the other, in one of the orders the loops can
    take. *)
Lemma parsePkgs_visits pkgs st r :
  parsePkgs H pkgs st r ↔ ∃ fns, visits pkgs fns ∧ r = parseFiles H fns st.
Proof.
  split.
  - induction 1 as [st|pkg pkgs fns st st1 r Hfns E _ IH|pkg pkgs fns st k st1 Hfns E].
    + exists []. split; [constructor|done].
    + destruct IH as (rest & Hv & ->). exists (fns ++ rest).
      split; [by constructor|]. rewrite parseFiles_app. unfold mbind, M_bind. by rewrite E.
    + destruct (visits_exists pkgs) as [rest Hv]. exists (fns ++ rest).
      split; [by constructor|]. rewrite parseFiles_app. unfold mbind, M_bind. by rewrite E.
  - intros (fns & Hv & ->). revert st.
    induction Hv as [|pkg pkgs fns rest Hfns _ IH]; intros st; [constructor|].
    rewrite parseFiles_app. unfold mbind, M_bind.
    destruct (parseFiles H fns st) as [[] st1|k st1] eqn:E.
    + by eapply parsePkgs_next.
    + by eapply parsePkgs_abort.
Qed.

Lemma visits_all_files pkgs fns : visits pkgs fns → fns ≡ₚ all_files pkgs.
Proof.
  induction 1 as [|pkg pkgs fns rest Hfns _ IH]; [done|].
  unfold all_files. cbn [mbind list_bind]. fold (all_files pkgs). by rewrite Hfns, IH.
Qed.

Lemma parseDir_visits d st r :
  parseDir H d st r ↔
  (parser_ParseDir H d = None ∧ r = Abort (Fatal ParseError) st)
  ∨ (∃ pkgs order fns,
       parser_ParseDir H d = Some pkgs
       ∧ order ≡ₚ (map_to_list pkgs).*2
       ∧ visits order fns
       ∧ r = parseFiles H fns st).
Proof.
  split.
  - intros [E|pkgs order r' E Ho Hp]; [by left|right].
    apply parsePkgs_visits in Hp as (fns & Hv & ->). by exists pkgs, order, fns.
  - intros [[E ->]|(pkgs & order & fns & E & Ho & Hv & ->)]; [by constructor|].
    eapply parseDir_range; [done|done|]. apply parsePkgs_visits. by exists fns.
Qed.

End Order.

(** ** The content of the catalogs after a run *)

Lemma grow_grow cs1 cs2 o : grow cs2 (grow cs1 o) = grow (cs1 ++ cs2) o.
Proof.
  destruct cs1 as [|c cs1]; [done|]. destruct cs2 as [|c2 cs2].
  - by rewrite app_nil_r.
  - simpl. f_equal. by rewrite <- app_assoc.
Qed.

Lemma blocks_for_cons d r rs :
  blocks_for d (r :: rs)
  = (if decide (domain r = d) then record_chunks r else []) ++ blocks_for d rs.
Proof. reflexivity. Qed.

Lemma blocks_for_app d rs1 rs2 :
  blocks_for d (rs1 ++ rs2) = blocks_for d rs1 ++ blocks_for d rs2.
Proof. unfold blocks_for. apply bind_app. Qed.

Lemma record_chunks_not_nil r : record_chunks r ≠ [].
Proof. unfold record_chunks. by destruct (context r), (msgidPlural r). Qed.

Section CatalogFacts.

Context (H : Host).

(** The matcher reads two variables only. *)
Lemma matcher_ext st1 st2 call :
  currentDomain st1 = currentDomain st2 → fset st1 = fset st2 →
  matcher H st1 call = matcher H st2 call.
Proof.
  intros Hd Hf. unfold matcher, decode, decode_domain. by rewrite Hd, Hf.
Qed.

Lemma records_of_ext st1 st2 calls :
  currentDomain st1 = currentDomain st2 → fset st1 = fset st2 →
  records_of H st1 calls = records_of H st2 calls.
Proof.
  intros Hd Hf. unfold records_of, record_of.
  induction calls as [|c calls IH]; [done|].
  cbn [omap list_omap]. by rewrite IH, (matcher_ext st1 st2 c Hd Hf).
Qed.

(** The chunks on every stream after an emission that succeeds. *)
Lemma emit_streams d0 cs st st1 d :
  registry_ok H st → cs ≠ [] → emit H d0 cs st = Ok tt st1 →
  written <$> stream st1 d
  = grow (if decide (d0 = d) then cs else []) (written <$> stream st d).
Proof.
  intros Hok Hcs E. destruct (decide (d0 = d)) as [<-|Hne].
  - destruct (emit_target H d0 cs st st1 Hok E) as (o & Hs & _ & Hw).
    rewrite Hs. cbn [fmap option_fmap option_map]. rewrite Hw.
    destruct cs as [|c cs]; [done|]. cbn [grow].
    by destruct (stream st d0).
  - pose proof (emit_frame H d0 cs st d Hok (not_eq_sym Hne)) as [_ Hs].
    rewrite E in Hs. cbn [final] in Hs. by rewrite Hs.
Qed.

(** One call site: the stream of the record's domain grows by the chunks
    of the record, the other streams stay, and so do the variables the
    matcher reads. *)
Lemma inspectCallExpr_streams call st st1 :
  registry_ok H st → inspectCallExpr H call st = Ok tt st1 →
  currentDomain st1 = currentDomain st ∧ fset st1 = fset st
  ∧ ∀ d, written <$> stream st1 d
         = grow (blocks_for d (records_of H st [call])) (written <$> stream st d).
Proof.
  intros Hok. rewrite inspectCallExpr_matcher.
  unfold records_of, record_of. cbn [omap list_omap].
  destruct (matcher H st call) as [|r|k]; cbn [enact]; [by intros [= <-]| |done].
  rewrite writeRecord_emit. intros E.
  destruct (emit_globals H _ _ _ _ _ E) as (Hd & Hf & _).
  split; [done|]. split; [done|]. intros d.
  rewrite (emit_streams _ _ _ _ d Hok (record_chunks_not_nil r) E).
  rewrite blocks_for_cons. by rewrite app_nil_r.
Qed.

Lemma inspectCalls_streams calls st st1 :
  registry_ok H st → inspectCalls H calls st = Ok tt st1 →
  currentDomain st1 = currentDomain st ∧ fset st1 = fset st
  ∧ registry_ok H st1
  ∧ ∀ d, written <$> stream st1 d
         = grow (blocks_for d (records_of H st calls)) (written <$> stream st d).
Proof.
  revert st. induction calls as [|c calls IH]; intros st Hok.
  - by intros [= <-].
  - cbn [inspectCalls]. unfold mbind, M_bind.
    destruct (inspectCallExpr H c st) as [[] st2|k st2] eqn:E; [|done]. intros E2.
    destruct (inspectCallExpr_streams c st st2 Hok E) as (Hd & Hf & Hs).
    assert (Hok2 : registry_ok H st2).
    { pose proof (inspectCallExpr_registry_ok H c st Hok) as Hp. by rewrite E in Hp. }
    destruct (IH st2 Hok2 E2) as (Hd' & Hf' & Hok' & Hs').
    split; [congruence|]. split; [congruence|]. split; [done|]. intros d.
    rewrite Hs', Hs, grow_grow, <- blocks_for_app.
    rewrite (records_of_ext st2 st calls Hd Hf).
    unfold records_of. by rewrite <- omap_app.
Qed.





End CatalogFacts.

(** [main] up to the choice between [parseDir] and [parseFile] is a
    function of the command line, so two runs take the same branch from the
    same state. *)
Lemma main_inv (H : Host) args r :
  main H args r →
  match main_args H args initial with
  | Abort k st => r = Abort k st
  | Ok true st => parseDir H (dirName st) st r
  | Ok false st => r = parseFile H (dirName st) st
  end.
Proof. intros [k st E|st r' E Hd|st E]; by rewrite E. Qed.

(** * The statements of the specification *)




(** C2.  A plural call whose count argument is neither an integer literal
    nor an identifier resolved to a variable or a constant is to produce no
    catalog entry.  [parseGetN] skips such a call, but [parseGetNC] and
    [parseGetNDC] never look at the count argument: with the call [f()] in
    that position both write the entry. *)
Theorem C2_count_argument_not_examined :
  inspectCallExpr demo.host demo.getn_call initial = Ok tt initial
  ∧ demo.catalog (inspectCallExpr demo.host demo.getnc_call initial) "default"
    = Some (h +:+ entry_text
              {| domain := "default"; msgid := demo.quoted "%d apple";
                 msgidPlural := Some (demo.quoted "%d apples");
                 context := Some (demo.quoted "fruit");
                 location := {| token.Filename := EmptyString; token.Line := 0 |};
                 callLabel := "gotext.GetNC" |})
  ∧ demo.catalog (inspectCallExpr demo.host demo.getndc_call initial) "app"
    = Some (h +:+ entry_text
              {| domain := "app"; msgid := demo.quoted "%d apple";
                 msgidPlural := Some (demo.quoted "%d apples");
                 context := Some (demo.quoted "fruit");
                 location := {| token.Filename := EmptyString; token.Line := 0 |};
                 callLabel := "gotext.GetNDC" |}).
Proof. split_and!; vm_compute; reflexivity. Qed.

(** C3.  A call site that names a variant and fails its requirements is to
    leave no trace and let the run go on.  With a count argument that is an
    identifier the parser left unresolved, [parseGetN] reads the [Kind] of
    a nil object and the process ends in a panic; with a count argument of
    a disallowed shape [parseGetNC] writes a record. *)
Theorem C3_failed_requirements_not_always_skipped :
  inspectCallExpr demo.host demo.getn_unresolved initial
  = Abort (Panic NilDereference) initial
  ∧ exit_status (Panic NilDereference) = 2%Z
  ∧ Args demo.getnc_call !! 2 = Some demo.f_call
  ∧ countShape demo.f_call = CountRejected
  ∧ inspectCallExpr demo.host demo.getnc_call initial
    = writeRecord demo.host
        {| domain := "default"; msgid := demo.quoted "%d apple";
           msgidPlural := Some (demo.quoted "%d apples");
           context := Some (demo.quoted "fruit");
           location := {| token.Filename := EmptyString; token.Line := 0 |};
           callLabel := "gotext.GetNC" |} initial
  ∧ inspectCallExpr demo.host demo.getnc_call initial ≠ Ok tt initial.
Proof. split_and!; vm_compute; try reflexivity. discriminate. Qed.

(** C4.  The first resolve of a domain name opens, truncating, the file of
    the domain, writes the header to it and registers the open stream;
    a registration stays, and every later resolve of the name returns the
    registered stream and writes nothing.  Hence at the end of every run,
    and after every call site, each registered stream has the header as
    the first chunk written and nowhere else, and no two domain names are
    registered with the same stream. *)
Theorem C4_header_once_per_domain (H : Host) :
  (∀ st d,
      domainFiles st !! d = None →
      os_OpenFile H (path_Join H (outputDir st) (d +:+ ".po")) = true →
      ∃ st', getDomainFile H d st = Ok (length (openFiles st)) st'
             ∧ domainFiles st' = <[d := length (openFiles st)]> (domainFiles st)
             ∧ openFiles st'
               = openFiles st
                 ++ [{| name := path_Join H (outputDir st) (d +:+ ".po");
                        written := [h] |}])
  ∧ (∀ st d f, domainFiles st !! d = Some f → getDomainFile H d st = Ok f st)
  ∧ (∀ st d f st', getDomainFile H d st = Ok f st' → domainFiles st' !! d = Some f)
  ∧ (∀ call st d f, domainFiles st !! d = Some f →
       domainFiles (final (inspectCallExpr H call st)) !! d = Some f)
  ∧ (∀ call st, registry_ok H st → registry_ok H (final (inspectCallExpr H call st)))
  ∧ (∀ args r, main H args r → registry_ok H (final r)).
Proof.
  split_and!.
  - intros st d Hd Ho. exists (created H d st). by rewrite getDomainFile_create.
  - intros st d f. apply getDomainFile_cached.
  - intros st d f st'. apply getDomainFile_registered.
  - intros call st d f. apply inspectCallExpr_registration_kept.
  - intros call st. apply inspectCallExpr_registry_ok.
  - intros args r. apply main_registry_ok.
Qed.

Lemma C4_witness :
  registry_ok demo.host
    (final (parseFile demo.host "pkg/a.go" (demo.started "pkg/a.go")))
  ∧ stream (final (parseFile demo.host "pkg/a.go" (demo.started "pkg/a.go"))) "default"
    = Some {| name := "default.po";
              written := h :: record_chunks
                {| domain := "default"; msgid := demo.quoted "hello";
                   msgidPlural := None; context := None;
                   location := {| token.Filename := "pkg/a.go"; token.Line := 5 |};
                   callLabel := "gotext.Get" |} |}.
Proof.
  split; [|by vm_compute].
  destruct (C4_header_once_per_domain demo.host) as (_ & _ & _ & _ & _ & Hmain).
  apply (Hmain demo.args_file (parseFile demo.host "pkg/a.go" (demo.started "pkg/a.go"))).
  by apply (main_file demo.host demo.args_file (demo.started "pkg/a.go")).
Defined.

(** C5.  Every catalog file is to begin with the header block followed by
    exactly one empty line and nothing else before the first comment line.
    The chunk [writePoHeader] writes is the header block, one empty line
    and then a tab character: in the catalog that [xgotext pkg/a.go]
    produces, the first comment line is preceded by a line that holds a
    tab. *)
Theorem C5_header_chunk_ends_with_tab :
  h = header_block +:+ nl +:+ tab
  ∧ demo.catalog (parseFile demo.host "pkg/a.go" (demo.started "pkg/a.go")) "default"
    = Some (header_block +:+ nl +:+ tab +:+ nl
            +:+ "#: pkg/a.go:5" +:+ nl
            +:+ "#. gotext.Get" +:+ nl
            +:+ "msgid " +:+ demo.quoted "hello" +:+ nl
            +:+ "msgstr " +:+ dq +:+ dq +:+ nl).
Proof. split_and!; vm_compute; reflexivity. Qed.

(** C6.  For every record the writer resolves the stream of the record's
    domain and appends to it exactly the block of the record: a line break
    (the separator line), the location comment, the call comment, the
    context line when the record has a context, then the singular or the
    plural message lines, every literal as it was captured.  The eight
    parse functions hand every record they match to this writer. *)
Theorem C6_writer_appends_block (H : Host) (r : Extraction) (st : State) :
  flatten (record_chunks r) = entry_text r
  ∧ match getDomainFile H (domain r) st with
    | Ok f st1 =>
        writeRecord H r st = Ok tt (append_chunks f (record_chunks r) st1)
        ∧ domainFiles (append_chunks f (record_chunks r) st1) = domainFiles st1
        ∧ (∀ g, g ≠ f →
             openFiles (append_chunks f (record_chunks r) st1) !! g = openFiles st1 !! g)
        ∧ (∀ o, openFiles st1 !! f = Some o →
             openFiles (append_chunks f (record_chunks r) st1) !! f
             = Some {| name := name o; written := written o ++ record_chunks r |}
             ∧ contents {| name := name o; written := written o ++ record_chunks r |}
               = contents o +:+ entry_text r)
    | Abort k st1 => writeRecord H r st = Abort k st1
    end
  ∧ (∀ call, matcher H st call = Matched r →
       inspectCallExpr H call st = writeRecord H r st).
Proof.
  split; [apply record_chunks_text|]. split.
  - rewrite writeRecord_emit. unfold emit, mbind, M_bind, modify.
    destruct (getDomainFile H (domain r) st) as [f st1|k st1]; [|done].
    split_and!; [done|done| |].
    + intros g Hg. by apply append_chunks_lookup_ne.
    + intros o Ho. split; [by apply append_chunks_lookup|].
      unfold contents. cbn [written]. by rewrite flatten_app, record_chunks_text.
  - intros call Hm. by rewrite inspectCallExpr_matcher, Hm.
Qed.

(** The example of the design: in the block of
    [GetNC("%d apple", "%d apples", n, "fruit")] the context line comes
    right before the plural message lines. *)
Lemma C6_witness :
  demo.catalog
    (inspectCallExpr demo.host
       (demo.call "gotext" "GetNC" 7%Z
          [demo.lit "%d apple"; demo.lit "%d apples"; demo.var "n"; demo.lit "fruit"])
       (set_fset (demo.lines_of "a.go") initial)) "default"
  = Some (h +:+ nl
          +:+ "#: a.go:7" +:+ nl
          +:+ "#. gotext.GetNC" +:+ nl
          +:+ "msgctxt " +:+ demo.quoted "fruit" +:+ nl
          +:+ "msgid " +:+ demo.quoted "%d apple" +:+ nl
          +:+ "msgid_plural " +:+ demo.quoted "%d apples" +:+ nl
          +:+ "msgstr[0] " +:+ dq +:+ dq +:+ nl
          +:+ "msgstr[1] " +:+ dq +:+ dq +:+ nl).
Proof.
  set (st := set_fset (demo.lines_of "a.go") initial).
  set (r := {| domain := "default"; msgid := demo.quoted "%d apple";
               msgidPlural := Some (demo.quoted "%d apples");
               context := Some (demo.quoted "fruit");
               location := {| token.Filename := "a.go"; token.Line := 7 |};
               callLabel := "gotext.GetNC" |}).
  destruct (C6_writer_appends_block demo.host r st) as (_ & _ & Hcall).
  rewrite Hcall by (vm_compute; reflexivity).
  vm_compute. reflexivity.
Defined.

(** C7.  For a matched call to [GetD], [GetND], [GetDC] or [GetNDC] the
    record handed to the writer has as its domain the unquoted value of
    argument 0 and as its msgid the literal at position 1 as captured; for
    [GetND] and [GetNDC] the plural msgid is the literal at position 2; the
    context is the literal at position 2 for [GetDC] and at position 4 for
    [GetNDC]. *)
Theorem C7_domain_variants_record (H : Host) (call : CallExpr) (st : State)
    (x v0 v1 d : string) :
  receiver call = Some x →
  stringAt (Args call) 0 = Some v0 →
  stringAt (Args call) 1 = Some v1 →
  strconv_Unquote H v0 = Some d →
  (selector call = Some "GetD" →
     inspectCallExpr H call st
     = writeRecord H {| domain := d; msgid := v1; msgidPlural := None; context := None;
                        location := fset st (Lparen call);
                        callLabel := x +:+ "." +:+ "GetD" |} st)
  ∧ (∀ v2, selector call = Some "GetND" → stringAt (Args call) 2 = Some v2 →
     inspectCallExpr H call st
     = writeRecord H {| domain := d; msgid := v1; msgidPlural := Some v2; context := None;
                        location := fset st (Lparen call);
                        callLabel := x +:+ "." +:+ "GetND" |} st)
  ∧ (∀ v2, selector call = Some "GetDC" → stringAt (Args call) 2 = Some v2 →
     inspectCallExpr H call st
     = writeRecord H {| domain := d; msgid := v1; msgidPlural := None; context := Some v2;
                        location := fset st (Lparen call);
                        callLabel := x +:+ "." +:+ "GetDC" |} st)
  ∧ (∀ v2 v4, selector call = Some "GetNDC" →
     stringAt (Args call) 2 = Some v2 → stringAt (Args call) 4 = Some v4 →
     inspectCallExpr H call st
     = writeRecord H {| domain := d; msgid := v1; msgidPlural := Some v2; context := Some v4;
                        location := fset st (Lparen call);
                        callLabel := x +:+ "." +:+ "GetNDC" |} st).
Proof.
  intros Hrecv H0 H1 Hu.
  pose proof (stringAt_lt _ _ _ H1) as Hlen1.
  split_and!.
  - intros Hs. rewrite inspectCallExpr_matcher.
    rewrite (matcher_signature H st call _ _ Hs eq_refl).
    erewrite decode_matched; [| | | |by cbn; rewrite H0; apply Hu|done];
      cbn; rewrite ?H0, ?H1; cbn; [done|lia|done|done].
  - intros v2 Hs H2. pose proof (stringAt_lt _ _ _ H2).
    rewrite inspectCallExpr_matcher.
    rewrite (matcher_signature H st call _ _ Hs eq_refl).
    erewrite decode_matched; [| | | |by cbn; rewrite H0; apply Hu|done];
      cbn; rewrite ?H0, ?H1, ?H2; cbn; [done|lia|done|done].
  - intros v2 Hs H2. pose proof (stringAt_lt _ _ _ H2).
    rewrite inspectCallExpr_matcher.
    rewrite (matcher_signature H st call _ _ Hs eq_refl).
    erewrite decode_matched; [| | | |by cbn; rewrite H0; apply Hu|done];
      cbn; rewrite ?H0, ?H1, ?H2; cbn; [done|lia|done|done].
  - intros v2 v4 Hs H2 H4. pose proof (stringAt_lt _ _ _ H4).
    rewrite inspectCallExpr_matcher.
    rewrite (matcher_signature H st call _ _ Hs eq_refl).
    erewrite decode_matched; [| | | |by cbn; rewrite H0; apply Hu|done];
      cbn; rewrite ?H0, ?H1, ?H2, ?H4; cbn; [done|lia|done|done].
Qed.

Lemma C7_witness :
  inspectCallExpr demo.host demo.getndc_matched initial
  = writeRecord demo.host
      {| domain := "app"; msgid := demo.quoted "%d apple";
         msgidPlural := Some (demo.quoted "%d apples");
         context := Some (demo.quoted "fruit");
         location := fset initial 8%Z;
         callLabel := "gotext" +:+ "." +:+ "GetNDC" |} initial.
Proof.
  destruct (C7_domain_variants_record demo.host demo.getndc_matched initial
              "gotext" (demo.quoted "app") (demo.quoted "%d apple") "app"
              eq_refl eq_refl eq_refl eq_refl) as (_ & _ & _ & Hndc).
  apply (Hndc (demo.quoted "%d apples") (demo.quoted "fruit")); reflexivity.
Defined.






(** C10.  For a call that names a variant and meets its requirements: when
    the receiver is a plain identifier the two type assertions of the
    label succeed, the label is receiver, dot, method, and the record is
    written; when the receiver is any other expression the call is not
    skipped: the type assertion panics, before anything is written. *)
Theorem C10_receiver_type_assertion (H : Host) (call : CallExpr) (st : State)
    (s : string) (sig : Signature) :
  selector call = Some s →
  signature_for s = Some sig →
  requirements_met H sig st call = true →
  (∀ x, receiver call = Some x →
     (∃ r, callLabel r = x +:+ "." +:+ s
           ∧ inspectCallExpr H call st = writeRecord H r st)
     ∧ ∀ st', inspectCallExpr H call st ≠ Abort (Panic TypeAssertion) st')
  ∧ (receiver call = None →
     inspectCallExpr H call st = Abort (Panic TypeAssertion) st
     ∧ inspectCallExpr H call st ≠ Ok tt st).
Proof.
  intros Hs Hsig Hreq. unfold requirements_met in Hreq.
  rewrite !andb_true_iff in Hreq. destruct Hreq as (((Hlen & Hstr) & Hcount) & Hdom).
  apply Nat.leb_le in Hlen.
  destruct (count_check sig (Args call)) eqn:Hc; try discriminate Hcount.
  destruct (decode_domain H sig st (Args call)) as [d|] eqn:Hd; [|discriminate Hdom].
  rewrite inspectCallExpr_matcher, (matcher_signature H st call s sig Hs Hsig).
  split.
  - intros x Hr. rewrite (decode_matched H sig st call d x Hlen Hstr Hc Hd Hr).
    cbn [enact]. split.
    + eexists. split; [|reflexivity]. cbn [callLabel].
      by rewrite (signature_for_name s sig Hsig).
    + intros st' Ha. by apply writeRecord_abort in Ha as [? _].
  - intros Hr. by rewrite (decode_no_receiver H sig st call d Hlen Hstr Hc Hd Hr).
Qed.

Lemma C10_witness :
  inspectCallExpr demo.host demo.chained_call initial
  = Abort (Panic TypeAssertion) initial.
Proof.
  destruct (C10_receiver_type_assertion demo.host demo.chained_call initial "Get"
              {| methodName := "Get"; minArgCount := 1; stringArgPositions := [0];
                 domainSource := None; msgidPosition := 0; pluralPosition := None;
                 contextArgPosition := None; countArgPosition := None |}
              eq_refl eq_refl eq_refl) as [_ Hpanic].
  by apply Hpanic.
Defined.

(** * Further properties of the program *)

(** ** What a run keeps *)

Section RunInvariant.

Context (H : Host) (P : State → Prop).

Hypothesis P_call : ∀ call, preserves P (inspectCallExpr H call).
Hypothesis P_currentFile : ∀ v st, P st → P (set_currentFile v st).
Hypothesis P_fset : ∀ v st, P st → P (set_fset v st).

Lemma parseFile_preserves fileName : preserves P (parseFile H fileName).
Proof.
  unfold parseFile.
  apply preserves_bind; [apply preserves_modify, P_currentFile|]. intros _.
  apply preserves_bind; [apply preserves_modify, P_fset|]. intros _.
  destruct (parser_ParseFile H fileName) as [[fs node]|]; [|apply preserves_die].
  apply preserves_bind; [apply preserves_modify, P_fset|]. intros _.
  by apply Inspect_preserves, inspectFile_preserves.
Qed.

Lemma parseFiles_preserves fns : preserves P (parseFiles H fns).
Proof.
  induction fns as [|fn fns IH]; [apply preserves_ret|].
  cbn [parseFiles]. apply preserves_bind; [apply parseFile_preserves|]. by intros _.
Qed.

Lemma parseDir_preserves d st r : parseDir H d st r → P st → P (final r).
Proof.
  intros Hd HP. apply parseDir_visits in Hd as [[_ ->]|(? & ? & fns & _ & _ & _ & ->)];
    [done|]. by apply parseFiles_preserves.
Qed.

Lemma main_preserves args r :
  P (final (main_args H args initial)) → main H args r → P (final r).
Proof.
  intros HP Hm. apply main_inv in Hm.
  destruct (main_args H args initial) as [[|] st|k st]; cbn [final] in HP.
  - by apply (parseDir_preserves _ _ _ Hm).
  - subst r. by apply parseFile_preserves.
  - by subst r.
Qed.

End RunInvariant.

(** The state in which [main] starts to parse, or gives up: nothing is
    registered or open, and the output directory is the third element of
    the command line, if there is one. *)
Lemma main_args_final (H : Host) args :
  ∃ dn, final (main_args H args initial)
        = set_dirName dn (set_outputDir (default EmptyString (args !! 2)) initial).
Proof.
  unfold main_args, mbind, M_bind, modify, die, index, mret, M_ret.
  destruct args as [|a0 [|a1 [|a2 rest]]]; cbn.
  - by exists EmptyString.
  - by exists EmptyString.
  - destruct (os_Stat H a1); by exists a1.
  - destruct (os_Stat H a1); by exists a1.
Qed.

Section Globals.

Context (H : Host).

(** A call site changes the registry and the open files only, however it
    ends. *)
Lemma inspectCallExpr_globals call st :
  currentDomain (final (inspectCallExpr H call st)) = currentDomain st
  ∧ outputDir (final (inspectCallExpr H call st)) = outputDir st
  ∧ fset (final (inspectCallExpr H call st)) = fset st.
Proof.
  rewrite inspectCallExpr_matcher.
  destruct (matcher H st call) as [|r|k]; cbn [enact]; [done| |done].
  rewrite writeRecord_emit.
  by destruct (emit_cases H (domain r) (record_chunks r) st)
    as [(f & _ & ->)|[(_ & _ & ->)|(_ & _ & ->)]].
Qed.

(** An emission keeps the open files and the registrations in step. *)
Lemma emit_registry_full d cs : preserves registry_full (emit H d cs).
Proof.
  intros st [Hlen Hall].
  destruct (emit_cases H d cs st) as [(f & Hf & ->)|[(Hn & _ & ->)|(_ & _ & ->)]];
    cbn [final]; [| |done].
  - split.
    + cbn [append_chunks set_openFiles openFiles domainFiles]. by rewrite length_alter.
    + intros g. cbn [append_chunks set_openFiles openFiles domainFiles].
      rewrite length_alter. apply Hall.
  - split.
    + cbn [append_chunks set_openFiles openFiles domainFiles]. rewrite length_alter.
      rewrite created_openFiles, created_domainFiles, length_app.
      rewrite map_size_insert_None by done. cbn [length]. lia.
    + intros g. cbn [append_chunks set_openFiles openFiles domainFiles].
      rewrite length_alter, created_openFiles, created_domainFiles, length_app.
      cbn [length]. intros Hg.
      destruct (decide (g = length (openFiles st))) as [->|Hne].
      * exists d. apply lookup_insert_eq.
      * destruct (Hall g) as [d' Hd']; [lia|]. exists d'.
        rewrite lookup_insert_ne; [done|]. intros ->. congruence.
Qed.

Lemma inspectCallExpr_registry_full call :
  preserves registry_full (inspectCallExpr H call).
Proof.
  intros st Hf. rewrite inspectCallExpr_matcher.
  destruct (matcher H st call) as [|r|k]; cbn [enact]; [done| |done].
  rewrite writeRecord_emit. by apply emit_registry_full.
Qed.

End Globals.

(** X1.  With fewer than two elements on the command line, or with a path
    that [os.Stat] cannot find, every run ends at once in the fatal exit
    of [log.Fatal], before anything is parsed: no catalog file is opened
    and no domain is registered. *)
Theorem X1_main_gives_up_before_parsing (H : Host) (args : list string) (r : Res unit) :
  main H args r →
  (length args < 2)%nat ∨ (∃ a1, args !! 1 = Some a1 ∧ os_Stat H a1 = None) →
  ∃ why st, r = Abort (Fatal why) st
            ∧ exit_status (Fatal why) = 1%Z
            ∧ openFiles st = [] ∧ domainFiles st = ∅.
Proof.
  intros Hm Hcase. apply main_inv in Hm. revert Hm.
  unfold main_args, mbind, M_bind, modify, die, index, mret, M_ret.
  destruct args as [|a0 [|a1' [|a2 rest]]]; cbn.
  - intros ->. by exists Usage, (set_domainFiles ∅ initial).
  - intros ->. by exists Usage, (set_domainFiles ∅ initial).
  - destruct Hcase as [Hlen|(a1 & [= <-] & Hstat)]; [cbn in Hlen; lia|].
    rewrite Hstat. intros ->. by eexists StatError, _.
  - destruct Hcase as [Hlen|(a1 & [= <-] & Hstat)]; [cbn in Hlen; lia|].
    rewrite Hstat. intros ->. by eexists StatError, _.
Qed.

Lemma X1_witness :
  ∃ why st, @Abort unit (Fatal Usage) initial = Abort (Fatal why) st
            ∧ exit_status (Fatal why) = 1%Z
            ∧ openFiles st = [] ∧ domainFiles st = ∅.
Proof.
  apply (X1_main_gives_up_before_parsing demo.host ["xgotext"] (Abort (Fatal Usage) initial)).
  - by apply main_abort.
  - left. cbn. lia.
Defined.

(** X2.  At the end of every run the open files are exactly the catalogs of
    the registered domains, one each: their number is the number of
    domains, and every open file is the stream of a domain [d] and was
    opened on [path.Join(outputDir, d + ".po")], where [outputDir] is the
    third element of the command line, or empty when there is none. *)
Theorem X2_open_files_are_the_catalogs (H : Host) (args : list string) (r : Res unit) :
  main H args r →
  outputDir (final r) = default EmptyString (args !! 2)
  ∧ length (openFiles (final r)) = size (domainFiles (final r))
  ∧ ∀ f o, openFiles (final r) !! f = Some o →
      ∃ d, domainFiles (final r) !! d = Some f
           ∧ name o = path_Join H (default EmptyString (args !! 2)) (d +:+ ".po").
Proof.
  intros Hm.
  assert (HP : registry_ok H (final r) ∧ registry_full (final r)
               ∧ outputDir (final r) = default EmptyString (args !! 2)).
  { apply (main_preserves H
             (λ st, registry_ok H st ∧ registry_full st
                    ∧ outputDir st = default EmptyString (args !! 2))) with args;
      [| | |  |done].
    - intros call st (Hok & Hfull & Hout). split_and!.
      + by apply inspectCallExpr_registry_ok.
      + by apply inspectCallExpr_registry_full.
      + destruct (inspectCallExpr_globals H call st) as (_ & -> & _). done.
    - intros v st HP. exact HP.
    - intros v st HP. exact HP.
    - destruct (main_args_final H args) as [dn ->]. split_and!; [| |done].
      + by apply registry_ok_empty.
      + split; [done|]. intros f Hf. cbn in Hf. lia. }
  destruct HP as ([Hreg _] & [Hlen Hall] & Hout). split_and!; [done|done|].
  intros f o Ho. destruct (Hall f) as [d Hd]; [by apply lookup_lt_Some in Ho|].
  exists d. split; [done|].
  destruct (Hreg d f Hd) as (o' & cs & Ho' & Hname & _).
  rewrite Ho in Ho'. injection Ho' as <-. by rewrite Hname, Hout.
Qed.

Lemma X2_witness :
  length (openFiles (final (parseFile demo.host "pkg/a.go" (demo.started "pkg/a.go"))))
  = size (domainFiles (final (parseFile demo.host "pkg/a.go" (demo.started "pkg/a.go")))).
Proof.
  assert (Hm : main demo.host demo.args_file
                 (parseFile demo.host "pkg/a.go" (demo.started "pkg/a.go"))).
  { by apply (main_file demo.host demo.args_file (demo.started "pkg/a.go")). }
  by destruct (X2_open_files_are_the_catalogs demo.host demo.args_file _ Hm) as (_ & ? & _).
Defined.

(** X3.  No call site changes the current domain, the output directory or
    the file set, however it ends, and every run ends with the current
    domain it started with, [default]. *)
Theorem X3_current_domain_is_default (H : Host) :
  (∀ call st,
      currentDomain (final (inspectCallExpr H call st)) = currentDomain st
      ∧ outputDir (final (inspectCallExpr H call st)) = outputDir st
      ∧ fset (final (inspectCallExpr H call st)) = fset st)
  ∧ (∀ args r, main H args r → currentDomain (final r) = "default").
Proof.
  split; [apply inspectCallExpr_globals|].
  intros args r Hm.
  apply (main_preserves H (λ st, currentDomain st = "default")) with args; [| | | |done].
  - intros call st Hd. by destruct (inspectCallExpr_globals H call st) as (-> & _).
  - intros v st HP. exact HP.
  - intros v st HP. exact HP.
  - by destruct (main_args_final H args) as [dn ->].
Qed.

Lemma X3_witness :
  currentDomain (final (parseFile demo.host "pkg/a.go" (demo.started "pkg/a.go")))
  = "default".
Proof.
  destruct (X3_current_domain_is_default demo.host) as [_ Hrun].
  apply (Hrun demo.args_file).
  by apply (main_file demo.host demo.args_file (demo.started "pkg/a.go")).
Defined.

(** X4.  A call that is not made through a selector, or whose selector name
    is not one of the eight method names, spelled exactly, is left alone:
    nothing is written, nothing is registered and the run goes on. *)
Theorem X4_other_calls_are_ignored (H : Host) (call : CallExpr) (st : State) :
  (∀ s, selector call = Some s → s ∉ method_names) →
  inspectCallExpr H call st = Ok tt st.
Proof.
  intros Hn. apply unknown_method_skipped. intros s Hs. specialize (Hn s Hs).
  unfold method_names in Hn. rewrite !not_elem_of_cons in Hn.
  destruct Hn as (? & ? & ? & ? & ? & ? & ? & ? & _).
  apply signature_for_none; by apply String.eqb_neq.
Qed.

Lemma X4_witness :
  inspectCallExpr demo.host demo.println_call initial = Ok tt initial.
Proof.
  apply X4_other_calls_are_ignored. intros s [= <-]. unfold method_names.
  rewrite !not_elem_of_cons. split_and!; try discriminate. apply not_elem_of_nil.
Defined.

(** ** What the parse functions look at *)

Lemma stringAt_app args extra i :
  (i < length args)%nat → stringAt (args ++ extra) i = stringAt args i.
Proof. intros Hi. unfold stringAt. by rewrite lookup_app_l. Qed.

Lemma strings_ok_false s args :
  (∃ i, i ∈ stringArgPositions s ∧ stringAt args i = None) → strings_ok s args = false.
Proof.
  intros (i & Hi & Hnone). unfold strings_ok.
  destruct (forallb _ _) eqn:E; [|done].
  rewrite forallb_forall in E. apply list_elem_of_In in Hi.
  specialize (E i Hi). by rewrite Hnone in E.
Qed.

(** Every position a signature mentions lies below its argument count. *)
Lemma signature_positions s sig :
  signature_for s = Some sig →
  Forall (λ i, (i < minArgCount sig)%nat) (stringArgPositions sig)
  ∧ (msgidPosition sig < minArgCount sig)%nat
  ∧ (∀ i, pluralPosition sig = Some i → (i < minArgCount sig)%nat)
  ∧ (∀ i, contextArgPosition sig = Some i → (i < minArgCount sig)%nat)
  ∧ (∀ i, countArgPosition sig = Some i → (i < minArgCount sig)%nat)
  ∧ (∀ i, domainSource sig = Some i → (i < minArgCount sig)%nat).
Proof.
  unfold signature_for. intros Hf. apply List.find_some in Hf as [Hin _].
  cbn in Hin.
  repeat (destruct Hin as [<-|Hin];
          [split_and!; [repeat constructor; lia|cbn; lia|..];
           intros i [= <-]; cbn; lia|]).
  done.
Qed.

(** X5.  A call that names a variant is left alone, with nothing written
    and the run going on, when it has fewer arguments than the variant
    wants, when one of the positions that must hold a string literal holds
    anything else, and for [GetN] when the count argument is a literal
    that is not an integer, an identifier resolved to something that is
    neither a variable nor a constant, or any other expression. *)
Theorem X5_unmet_requirements_are_skipped (H : Host) (call : CallExpr) (st : State)
    (s : string) (sig : Signature) :
  selector call = Some s →
  signature_for s = Some sig →
  (length (Args call) < minArgCount sig)%nat
  ∨ (∃ i, i ∈ stringArgPositions sig ∧ stringAt (Args call) i = None)
  ∨ (s = "GetN" ∧ ∃ a, Args call !! 2 = Some a ∧ countShape a = CountRejected) →
  inspectCallExpr H call st = Ok tt st.
Proof.
  intros Hs Hsig Hcase.
  apply (unmet_requirements_skipped H s sig st call Hs Hsig).
  destruct Hcase as [Hlen|[Hstr|(-> & a & Ha & Hshape)]].
  - by left.
  - right. left. by apply strings_ok_false.
  - right. right. injection Hsig as <-. unfold count_check. cbn. by rewrite Ha.
Qed.

Lemma X5_witness :
  inspectCallExpr demo.host demo.get_variable initial = Ok tt initial.
Proof.
  apply (X5_unmet_requirements_are_skipped demo.host demo.get_variable initial "Get"
           {| methodName := "Get"; minArgCount := 1; stringArgPositions := [0];
              domainSource := None; msgidPosition := 0; pluralPosition := None;
              contextArgPosition := None; countArgPosition := None |} eq_refl eq_refl).
  right. left. exists 0. split; [apply list_elem_of_here|reflexivity].
Defined.

(** X6.  The arguments after those a variant wants, the values for the
    format, are never looked at: a call with enough arguments and the same
    call with further arguments appended do the same. *)
Theorem X6_trailing_arguments_are_ignored (H : Host) (call : CallExpr) (st : State)
    (s : string) (sig : Signature) (extra : list ast.Node) :
  selector call = Some s →
  signature_for s = Some sig →
  (minArgCount sig ≤ length (Args call))%nat →
  inspectCallExpr H {| Fun := Fun call; Lparen := Lparen call; Args := Args call ++ extra |} st
  = inspectCallExpr H call st.
Proof.
  intros Hs Hsig Hlen.
  destruct (signature_positions s sig Hsig) as (Hstr & Hmsg & Hpl & Hctx & Hcnt & Hdom).
  rewrite !inspectCallExpr_matcher.
  unfold matcher.
  change (selector {| Fun := Fun call; Lparen := Lparen call; Args := Args call ++ extra |})
    with (selector call).
  rewrite Hs, Hsig.
  assert (Hat : ∀ i, (i < minArgCount sig)%nat →
                     stringAt (Args call ++ extra) i = stringAt (Args call) i).
  { intros i Hi. apply stringAt_app. lia. }
  unfold decode. cbv zeta. cbn [Args Lparen].
  rewrite length_app.
  replace (length (Args call) + length extra <? minArgCount sig)%nat with false
    by (symmetry; apply Nat.ltb_ge; lia).
  replace (length (Args call) <? minArgCount sig)%nat with false
    by (symmetry; apply Nat.ltb_ge; lia).
  assert (Hok : strings_ok sig (Args call ++ extra) = strings_ok sig (Args call)).
  { unfold strings_ok. induction Hstr as [|i l Hi _ IH]; [done|].
    cbn [forallb]. by rewrite IH, (Hat i Hi). }
  assert (Hcount : count_check sig (Args call ++ extra) = count_check sig (Args call)).
  { unfold count_check. destruct (countArgPosition sig) as [i|] eqn:Ei; [|done].
    rewrite lookup_app_l; [done|]. specialize (Hcnt i eq_refl). lia. }
  assert (Hd : decode_domain H sig st (Args call ++ extra)
               = decode_domain H sig st (Args call)).
  { unfold decode_domain. destruct (domainSource sig) as [i|] eqn:Ei; [|done].
    by rewrite (Hat i (Hdom i eq_refl)). }
  rewrite Hok, Hcount, Hd, (Hat _ Hmsg).
  assert (Hp : pluralPosition sig ≫= stringAt (Args call ++ extra)
               = pluralPosition sig ≫= stringAt (Args call)).
  { destruct (pluralPosition sig) as [i|] eqn:Ei; [|done]. cbn. by apply Hat, Hpl. }
  assert (Hc : contextArgPosition sig ≫= stringAt (Args call ++ extra)
               = contextArgPosition sig ≫= stringAt (Args call)).
  { destruct (contextArgPosition sig) as [i|] eqn:Ei; [|done]. cbn. by apply Hat, Hctx. }
  rewrite Hp, Hc.
  change (receiver {| Fun := Fun call; Lparen := Lparen call; Args := Args call ++ extra |})
    with (receiver call).
  reflexivity.
Qed.

Lemma X6_witness :
  inspectCallExpr demo.host
    {| Fun := Fun demo.get_hello; Lparen := Lparen demo.get_hello;
       Args := Args demo.get_hello ++ [demo.var "name"; demo.f_call] |} initial
  = inspectCallExpr demo.host demo.get_hello initial.
Proof.
  apply (X6_trailing_arguments_are_ignored demo.host demo.get_hello initial "Get"
           {| methodName := "Get"; minArgCount := 1; stringArgPositions := [0];
              domainSource := None; msgidPosition := 0; pluralPosition := None;
              contextArgPosition := None; countArgPosition := None |}
           [demo.var "name"; demo.f_call] eq_refl eq_refl).
  cbn. lia.
Defined.

(** X7.  For a matched call to [Get], [GetN], [GetC] or [GetNC] the record
    handed to the writer has the current domain as its domain and the
    literal at position 0 as its msgid; for [GetN] and [GetNC] the plural
    msgid is the literal at position 1; the context is the literal at
    position 1 for [GetC] and at position 3 for [GetNC].  [GetN] wants in
    addition a count argument of an accepted shape at position 2. *)
Theorem X7_current_domain_variants_record (H : Host) (call : CallExpr) (st : State)
    (x v0 : string) :
  receiver call = Some x →
  stringAt (Args call) 0 = Some v0 →
  (selector call = Some "Get" →
     inspectCallExpr H call st
     = writeRecord H {| domain := currentDomain st; msgid := v0; msgidPlural := None;
                        context := None; location := fset st (Lparen call);
                        callLabel := x +:+ "." +:+ "Get" |} st)
  ∧ (∀ v1 a2, selector call = Some "GetN" → stringAt (Args call) 1 = Some v1 →
     Args call !! 2 = Some a2 → countShape a2 = CountAccepted →
     inspectCallExpr H call st
     = writeRecord H {| domain := currentDomain st; msgid := v0; msgidPlural := Some v1;
                        context := None; location := fset st (Lparen call);
                        callLabel := x +:+ "." +:+ "GetN" |} st)
  ∧ (∀ v1, selector call = Some "GetC" → stringAt (Args call) 1 = Some v1 →
     inspectCallExpr H call st
     = writeRecord H {| domain := currentDomain st; msgid := v0; msgidPlural := None;
                        context := Some v1; location := fset st (Lparen call);
                        callLabel := x +:+ "." +:+ "GetC" |} st)
  ∧ (∀ v1 v3, selector call = Some "GetNC" →
     stringAt (Args call) 1 = Some v1 → stringAt (Args call) 3 = Some v3 →
     inspectCallExpr H call st
     = writeRecord H {| domain := currentDomain st; msgid := v0; msgidPlural := Some v1;
                        context := Some v3; location := fset st (Lparen call);
                        callLabel := x +:+ "." +:+ "GetNC" |} st).
Proof.
  intros Hrecv H0.
  pose proof (stringAt_lt _ _ _ H0) as Hlen0.
  split_and!.
  - intros Hs. rewrite inspectCallExpr_matcher.
    rewrite (matcher_signature H st call _ _ Hs eq_refl).
    erewrite decode_matched; [| | | |reflexivity|done];
      cbn; rewrite ?H0; cbn; [done|lia|done|done].
  - intros v1 a2 Hs H1 Ha2 Hshape. pose proof (lookup_lt_Some _ _ _ Ha2).
    rewrite inspectCallExpr_matcher.
    rewrite (matcher_signature H st call _ _ Hs eq_refl).
    erewrite decode_matched; [| | | |reflexivity|done];
      cbn; rewrite ?H0, ?H1; cbn; [done|lia|done|].
    unfold count_check. cbn. by rewrite Ha2.
  - intros v1 Hs H1. pose proof (stringAt_lt _ _ _ H1).
    rewrite inspectCallExpr_matcher.
    rewrite (matcher_signature H st call _ _ Hs eq_refl).
    erewrite decode_matched; [| | | |reflexivity|done];
      cbn; rewrite ?H0, ?H1; cbn; [done|lia|done|done].
  - intros v1 v3 Hs H1 H3. pose proof (stringAt_lt _ _ _ H3).
    rewrite inspectCallExpr_matcher.
    rewrite (matcher_signature H st call _ _ Hs eq_refl).
    erewrite decode_matched; [| | | |reflexivity|done];
      cbn; rewrite ?H0, ?H1, ?H3; cbn; [done|lia|done|done].
Qed.

Lemma X7_witness :
  inspectCallExpr demo.host demo.getc_call initial
  = writeRecord demo.host
      {| domain := "default"; msgid := demo.quoted "open"; msgidPlural := None;
         context := Some (demo.quoted "menu"); location := fset initial 6%Z;
         callLabel := "gotext" +:+ "." +:+ "GetC" |} initial.
Proof.
  destruct (X7_current_domain_variants_record demo.host demo.getc_call initial
              "gotext" (demo.quoted "open") eq_refl eq_refl) as (_ & _ & HC & _).
  apply (HC (demo.quoted "menu")); reflexivity.
Defined.

(** X8.  Nothing is merged: a call site handled twice, as two call sites
    with the same arguments at the same position would be, leaves two full
    blocks on the catalog of its domain, one after the other. *)
Theorem X8_equal_records_are_written_twice (H : Host) (call : CallExpr)
    (st st1 st2 : State) (r : Extraction) :
  registry_ok H st →
  matcher H st call = Matched r →
  inspectCallExpr H call st = Ok tt st1 →
  inspectCallExpr H call st1 = Ok tt st2 →
  written <$> stream st2 (domain r)
  = Some (default [h] (written <$> stream st (domain r))
          ++ record_chunks r ++ record_chunks r).
Proof.
  intros Hok Hm E1 E2.
  assert (E : inspectCalls H [call; call] st = Ok tt st2).
  { cbn [inspectCalls]. unfold mbind, M_bind. rewrite E1, E2. done. }
  destruct (inspectCalls_streams H _ _ _ Hok E) as (_ & _ & _ & Hs).
  rewrite (Hs (domain r)). unfold records_of, record_of. cbn [omap list_omap].
  rewrite Hm. rewrite !blocks_for_cons. rewrite decide_True by done.
  cbn [blocks_for mbind list_bind]. rewrite app_nil_r.
  pose proof (record_chunks_not_nil r) as Hne.
  destruct (record_chunks r) as [|c cs] eqn:Ec; [done|]. reflexivity.
Qed.

Lemma X8_witness :
  ∃ st2,
    (inspectCallExpr demo.host demo.get_hello;; inspectCallExpr demo.host demo.get_hello)
      initial = Ok tt st2
    ∧ written <$> stream st2 "default"
      = Some ([h] ++ record_chunks
                {| domain := "default"; msgid := demo.quoted "hello"; msgidPlural := None;
                   context := None; location := fset initial 5%Z;
                   callLabel := "gotext.Get" |}
              ++ record_chunks
                {| domain := "default"; msgid := demo.quoted "hello"; msgidPlural := None;
                   context := None; location := fset initial 5%Z;
                   callLabel := "gotext.Get" |}).
Proof.
  eexists. split; [vm_compute; reflexivity|].
  apply (X8_equal_records_are_written_twice demo.host demo.get_hello initial
           (final (inspectCallExpr demo.host demo.get_hello initial)) _
           {| domain := "default"; msgid := demo.quoted "hello"; msgidPlural := None;
              context := None; location := fset initial 5%Z;
              callLabel := "gotext.Get" |}).
  - by apply registry_ok_empty.
  - vm_compute. reflexivity.
  - vm_compute. reflexivity.
  - vm_compute. reflexivity.
Defined.

(** ** Runs that write nothing, and runs that end early *)

(** X9.  A source file none of whose call sites matches creates no
    catalog, not even the one of the default domain: parsing it leaves the
    registry and the open files as they were. *)
Theorem X9_no_match_no_catalog (H : Host) (fileName : string) (fs : token.FileSet)
    (node : ast.Node) (st : State) :
  parser_ParseFile H fileName = Some (fs, node) →
  (∀ c, c ∈ calls_of node →
        matcher H (set_fset fs (set_currentFile fileName st)) c = Skipped) →
  ∃ st1, parseFile H fileName st = Ok tt st1
         ∧ openFiles st1 = openFiles st
         ∧ domainFiles st1 = domainFiles st.
Proof.
  intros Ep Hskip. exists (set_fset fs (set_currentFile fileName st)).
  split; [|done]. unfold parseFile. rewrite Ep. unfold mbind, M_bind, modify.
  rewrite Inspect_calls.
  change (set_fset fs (set_fset token.NewFileSet (set_currentFile fileName st)))
    with (set_fset fs (set_currentFile fileName st)).
  induction (calls_of node) as [|c calls IH]; [done|].
  cbn [inspectCalls]. unfold mbind, M_bind.
  rewrite inspectCallExpr_matcher, (Hskip c) by apply list_elem_of_here.
  cbn [enact]. apply IH. intros c' Hc'. apply Hskip. by apply list_elem_of_further.
Qed.

Lemma X9_witness :
  ∃ st1, parseFile demo.host2 "pkg/c.go" initial = Ok tt st1
         ∧ openFiles st1 = openFiles initial
         ∧ domainFiles st1 = domainFiles initial.
Proof.
  apply (X9_no_match_no_catalog demo.host2 "pkg/c.go" (demo.lines_of "pkg/c.go") demo.c_go);
    [reflexivity|].
  intros c Hc. vm_compute in Hc. apply list_elem_of_singleton in Hc as ->.
  vm_compute. reflexivity.
Defined.

(** X10.  A directory in which the parser finds no file is no error: the
    run of [parseDir] succeeds and leaves the state, and with it the
    output directory, untouched. *)
Theorem X10_directory_without_files (H : Host) (d : string)
    (pkgs : gmap string (gmap string ast.Node)) (st : State) (r : Res unit) :
  parser_ParseDir H d = Some pkgs →
  all_files (map_to_list pkgs).*2 = [] →
  parseDir H d st r →
  r = Ok tt st.
Proof.
  intros Ep Hnone Hd.
  apply parseDir_visits in Hd as [[? _]|(p & order & fns & Ep' & Ho & Hv & ->)];
    [congruence|].
  assert (p = pkgs) as -> by congruence.
  apply visits_all_files in Hv.
  assert (Ha : all_files order ≡ₚ all_files (map_to_list pkgs).*2).
  { unfold all_files. by rewrite Ho. }
  rewrite Ha, Hnone in Hv. apply Permutation_nil_r in Hv. by subst fns.
Qed.

Lemma X10_witness : @Ok unit tt initial = Ok tt initial.
Proof.
  apply (X10_directory_without_files demo.host2 "empty" ∅ initial (Ok tt initial));
    [reflexivity|reflexivity|].
  apply parseDir_visits. right. exists ∅, [], []. split_and!; [done|done|constructor|done].
Defined.



(** X12.  A resolve ends the process in one case only, a domain that is not
    registered yet and whose file cannot be opened; the exit is the fatal
    one and the state is left as it was.  A registered domain never fails
    to resolve. *)
Theorem X12_resolve_fails_only_on_open (H : Host) (d : string) (st : State)
    (k : abort) (st' : State) :
  getDomainFile H d st = Abort k st'
  ↔ k = Fatal OpenError ∧ st' = st
    ∧ domainFiles st !! d = None
    ∧ os_OpenFile H (path_Join H (outputDir st) (d +:+ ".po")) = false.
Proof.
  destruct (domainFiles st !! d) as [f|] eqn:E.
  - rewrite (getDomainFile_cached H d f st E). split; [done|]. by intros (_ & _ & ? & _).
  - destruct (os_OpenFile H (path_Join H (outputDir st) (d +:+ ".po"))) eqn:Ho.
    + rewrite (getDomainFile_create H d st E Ho). split; [done|]. by intros (_ & _ & _ & ?).
    + rewrite (getDomainFile_refused H d st E Ho). split.
      * by intros [= <- <-].
      * by intros (-> & -> & _).
Qed.

(** X14.  A call site that ends the process has written nothing: the state
    at the exit is the state before the call, so that no catalog holds
    half a block.  The exit is a nil dereference, a failed unquote, a
    failed type assertion or a file that cannot be opened; no index is
    ever out of range. *)
Theorem X14_abort_before_any_write (H : Host) (call : CallExpr) (st : State)
    (k : abort) (st' : State) :
  inspectCallExpr H call st = Abort k st' →
  st' = st
  ∧ (k = Panic NilDereference ∨ k = Fatal UnquoteError
     ∨ k = Panic TypeAssertion ∨ k = Fatal OpenError).
Proof.
  rewrite inspectCallExpr_matcher.
  destruct (matcher H st call) as [|r|k'] eqn:Hm; cbn [enact]; [done| |].
  - intros Ha. apply writeRecord_abort in Ha as [-> ->]. auto.
  - intros [= <- <-]. split; [done|].
    unfold matcher, decode in Hm.
    repeat case_match; try discriminate; injection Hm as <-; auto.
Qed.

Lemma X14_witness :
  initial = initial
  ∧ (Panic TypeAssertion = Panic NilDereference ∨ Panic TypeAssertion = Fatal UnquoteError
     ∨ Panic TypeAssertion = Panic TypeAssertion ∨ Panic TypeAssertion = Fatal OpenError).
Proof.
  apply (X14_abort_before_any_write demo.host demo.chained_call initial).
  vm_compute. reflexivity.
Defined.

(** ** The walk *)

Lemma calls_of_list (l : list ast.Node) :
  (fix of_list (l : list ast.Node) : list CallExpr :=
     match l with
     | [] => []
     | x :: r => calls_of x ++ of_list r
     end) l
  = l ≫= calls_of.
Proof. induction l as [|x l IH]; [done|]. cbn [mbind list_bind]. by rewrite <- IH. Qed.

(** X13.  The walk of a tree with the visitor [inspectFile] hands to
    [inspectCallExpr] the call expressions of the tree and nothing else,
    and it misses none: a call expression is handled exactly when it
    occurs in the tree, be it a statement of its own, an argument of
    another call or the receiver of a chained call. *)
Theorem X13_walk_reaches_every_call (H : Host) (node : ast.Node) :
  (∀ st, Inspect node (inspectFile H) st = inspectCalls H (calls_of node) st)
  ∧ (∀ c, c ∈ calls_of node ↔ occurs (call_node c) node).
Proof.
  split; [intros st; apply Inspect_calls|].
  intros c. split.
  - revert c.
    induction node as [k v|id|x sel IHx|fn lp args IHfn IHargs|children IHc]
      using Node_induction; intros c; cbn [calls_of]; rewrite ?calls_of_list.
    + by intros ?%elem_of_nil.
    + by intros ?%elem_of_nil.
    + intros Hc. by apply occurs_X, IHx.
    + rewrite elem_of_cons, elem_of_app, list_elem_of_bind.
      intros [->|[Hc|(a & Hc & Ha)]].
      * apply occurs_here.
      * by apply occurs_Fun, IHfn.
      * apply (occurs_Args _ fn lp args a Ha).
        rewrite Forall_forall in IHargs. by apply IHargs.
    + rewrite list_elem_of_bind. intros (a & Hc & Ha).
      apply (occurs_child _ children a Ha).
      rewrite Forall_forall in IHc. by apply IHc.
  - induction 1 as [|x sel _ IH|x sel Hm|fn lp args _ IH|fn lp args a Ha _ IH
                    |children a Ha _ IH]; cbn [calls_of]; rewrite ?calls_of_list.
    + destruct c as [fn lp args]. cbn. apply list_elem_of_here.
    + done.
    + discriminate Hm.
    + rewrite elem_of_cons, elem_of_app. auto.
    + rewrite elem_of_cons, elem_of_app, list_elem_of_bind. right. right. by exists a.
    + rewrite list_elem_of_bind. by exists a.
Qed.

(** ** The writer functions one by one *)



